(** * Tempo: sharded-search progress aggregator and Azure versioned writes

    A shallow embedding of two pieces of Go code:

    - package [frontend]: [searchProgress], the mutex-guarded sink that
      aggregates the responses of the sharded search jobs
      ([newSearchProgress], [setStatus], [setError], [addResponse],
      [shouldQuit], [internalShouldQuit], [result]);
    - package [azure]: the optimistic-concurrency [WriteVersioned] and
      [DeleteVersioned], built from [ReadVersioned], [Write] and [Delete].

    Further on, the rest of package [azure] ([Read], [ReadRange],
    [Append] with its block ids, [List], [ListBlocks], [Find]), the
    [ScopeProfilesSlice] of package [pprofile] over a model of Go slices,
    and [Traces.SpanCount] of package [ptrace].

    Go pointers to [tempopb.SearchMetrics] are addresses into an explicit
    heap, so that aliasing between the sink and the snapshots it hands out
    is visible.  Runtime panics (nil dereference) are an outcome of their
    own.  Fixed-width integers are [Z] with the wrap-around written out. *)

From stdpp Require Import gmap strings list fin_maps pretty.

Local Open Scope Z_scope.

(** ** Go integers *)

(** [uint32(x)], [uint64(x)]: conversion keeps the low bits. *)
Definition uint32 (z : Z) : Z := z mod 2 ^ 32.
Definition uint64 (z : Z) : Z := z mod 2 ^ 64.

(** [int] on the 64-bit targets: two's complement wrap-around. *)
Definition int (z : Z) : Z := (z + 2 ^ 63) mod 2 ^ 64 - 2 ^ 63.

(** [http.StatusOK] *)
Definition StatusOK : Z := 200.

(** ** Go errors *)

(** The [error] interface: [nil] is [None].  The values are the two
    sentinels of package [backend], the storage SDK's response error
    carrying a service error code, an error built by [fmt.Errorf] around
    a wrapped cause ([%w]), and any other error value. *)
Inductive errval : Type :=
  | ErrDoesNotExist
  | ErrVersionDoesNotMatch
  | ResponseError (code : string)
  | Errorf (format : string) (wrapped : errval)
  | OtherError (msg : string).

Definition error : Type := option errval.

Definition errval_eqb (a b : errval) : bool :=
  match a, b with
  | ErrDoesNotExist, ErrDoesNotExist => true
  | ErrVersionDoesNotMatch, ErrVersionDoesNotMatch => true
  | _, _ => false
  end.

(** [errors.Is(err, target)] for a sentinel [target]: walks the [%w] chain. *)
Fixpoint errval_Is (e target : errval) : bool :=
  errval_eqb e target ||
  match e with
  | Errorf _ cause => errval_Is cause target
  | _ => false
  end.

Definition errors_Is (err : error) (target : errval) : bool :=
  match err with
  | None => false
  | Some e => errval_Is e target
  end.

(** [err != nil] *)
Definition non_nil {A} (p : option A) : bool :=
  match p with Some _ => true | None => false end.

(** * Package azure: versioned reads and writes *)

Module azure.

(** [backend.Version], [backend.KeyPath] *)
Abbreviation Version := string.
Abbreviation KeyPath := (list string).

(** [backend.VersionNew]; the constant is declared in package [backend],
    and [WriteVersioned] documents its value: the supplied version must
    be "0" when the object does not exist. *)
Definition VersionNew : Version := "0".

(** [bloberror.BlobNotFound] *)
Definition BlobNotFound : string := "BlobNotFound".

(** What a call into the storage SDK answers. *)
Inductive sdk (A : Type) : Type :=
  | Ok (a : A)
  | Err (e : errval).
Arguments Ok {A} a.
Arguments Err {A} e.

(** The fields of the blob properties that the code reads; both are
    pointers in the SDK and may be nil. *)
Record Props : Type := {
  ContentLength : option Z;
  ETag : option string
}.

(** What the code calls and does not define: the two path helpers of
    package [backend], [getBlobClient] (only whether it fails matters),
    and the blob operations of the storage SDK on a container whose
    contents are a [Container]. *)
Record Deps : Type := {
  KeyPathWithPrefix : KeyPath → string → KeyPath;
  ObjectFileName : KeyPath → string → string;
  Container : Type;
  GetProperties : Container → string → sdk Props;
  DownloadBuffer : Container → string → Z → Z → sdk (list Byte.byte);
  UploadStream : Container → string → list Byte.byte → Container * error;
  getBlobClient : string → error;
  DeleteBlob : Container → string → Container * error
}.

(** [Azure]: of [cfg] only [Prefix] matters here; both clients talk to
    the same container. *)
Record Azure : Type := { Prefix : string }.

(** [bloberror.HasCode(err, code)]: the first response error on the
    [%w] chain carries that code. *)
Fixpoint errval_HasCode (e : errval) (code : string) : bool :=
  match e with
  | ResponseError c => String.eqb c code
  | Errorf _ cause => errval_HasCode cause code
  | _ => false
  end.

Definition HasCode (err : error) (code : string) : bool :=
  match err with
  | Some e => errval_HasCode e code
  | None => false
  end.

Definition readError (err : error) : error :=
  if HasCode err BlobNotFound then Some ErrDoesNotExist
  else match err with
       | Some e => Some (Errorf "reading Azure blob container: %w" e)
       | None => None
       end.

Section Calls.

Variable d : Deps.
Variable rw : Azure.

(** [readAll]: the bytes, the ETag (empty when the service sent none)
    and the error.  [fmt.Errorf] with [%w] of a nil error wraps nothing. *)
Definition readAll (c : Container d) (name : string)
  : list Byte.byte * string * error :=
  match GetProperties d c name with
  | Err e => ([], "", Some e)
  | Ok props =>
      match ContentLength props with
      | None =>
          ([], "", Some (OtherError "expected content length but got none for blob"))
      | Some n =>
          match DownloadBuffer d c name 0 n with
          | Err e => ([], "", Some e)
          | Ok destBuffer =>
              (destBuffer, match ETag props with Some t => t | None => "" end, None)
          end
      end
  end.

Definition ReadVersioned (c : Container d) (name : string) (keypath : KeyPath)
  : option (list Byte.byte) * Version * error :=
  let keypath := KeyPathWithPrefix d keypath (Prefix rw) in
  let object := ObjectFileName d keypath name in
  let '(b, etag, err) := readAll c object in
  if non_nil err then (None, "", readError err)
  else (Some b, etag, None).

Definition writer (c : Container d) (src : list Byte.byte) (name : string)
  : Container d * error :=
  let '(c', err) := UploadStream d c name src in
  match err with
  | Some e => (c', Some (Errorf "cannot upload blob, name: %s: %w" e))
  | None => (c', None)
  end.

Definition Write (c : Container d) (name : string) (keypath : KeyPath)
    (data : list Byte.byte) (size : Z) : Container d * error :=
  let keypath := KeyPathWithPrefix d keypath (Prefix rw) in
  writer c data (ObjectFileName d keypath name).

(** [Delete] names the object without the configured prefix. *)
Definition Delete (c : Container d) (name : string) (keypath : KeyPath)
  : Container d * error :=
  match getBlobClient d (ObjectFileName d keypath name) with
  | Some e =>
      (c, Some (Errorf "cannot get Azure blob client, name: %s: %w" e))
  | None =>
      let '(c', err) := DeleteBlob d c (ObjectFileName d keypath name) in
      if non_nil err then (c', readError err) else (c', None)
  end.

Definition WriteVersioned (c : Container d) (name : string) (keypath : KeyPath)
    (data : list Byte.byte) (size : Z) (version : Version)
  : Container d * (Version * error) :=
  let '(_, currentVersion, err) := ReadVersioned c name keypath in
  if non_nil err && negb (errors_Is err ErrDoesNotExist) then (c, ("", err))
  else if errors_Is err ErrDoesNotExist && negb (String.eqb version VersionNew)
  then (c, ("", Some ErrVersionDoesNotMatch))
  else if negb (errors_Is err ErrDoesNotExist) &&
          negb (String.eqb version currentVersion)
  then (c, ("", Some ErrVersionDoesNotMatch))
  else
    let '(c', err) := Write c name keypath data size in
    if non_nil err then (c', ("", err))
    else
      let '(_, currentVersion, err) := ReadVersioned c' name keypath in
      (c', (currentVersion, err)).

Definition DeleteVersioned (c : Container d) (name : string) (keypath : KeyPath)
    (version : Version) : Container d * error :=
  let '(_, currentVersion, err) := ReadVersioned c name keypath in
  if non_nil err && negb (errors_Is err ErrDoesNotExist) then (c, err)
  else if negb (errors_Is err ErrDoesNotExist) &&
          negb (String.eqb currentVersion version)
  then (c, Some ErrVersionDoesNotMatch)
  else Delete c name keypath.

(** The caller's token against what [ReadVersioned] found: the object
    exists and the token is its version, or there is no object and the
    token is [VersionNew]. *)
Definition tokenMatches (c : Container d) (name : string) (keypath : KeyPath)
    (version : Version) : Prop :=
  let '(_, currentVersion, err) := ReadVersioned c name keypath in
  (err = None ∧ version = currentVersion) ∨
  (errors_Is err ErrDoesNotExist = true ∧ version = VersionNew).

Definition tokenMismatches (c : Container d) (name : string) (keypath : KeyPath)
    (version : Version) : Prop :=
  let '(_, currentVersion, err) := ReadVersioned c name keypath in
  (err = None ∧ version ≠ currentVersion) ∨
  (errors_Is err ErrDoesNotExist = true ∧ version ≠ VersionNew).

(** [io.EOF] *)
Definition EOF : errval := OtherError "EOF".

(** The count [readRange] asks the SDK for, in [int64] arithmetic: the
    length of the buffer when the buffer is not empty and fits into what
    is left of the blob, and what is left of the blob otherwise. *)
Definition rangeCount (length contentLength offset : Z) : Z :=
  if (0 <? length) && (length <=? int (contentLength - offset)) then length
  else int (contentLength - offset).

(** [readRange]: the buffer as the SDK left it, and the error.  The last
    step reads the buffer through a [bytes.Reader] into itself, which
    answers [io.EOF] when the buffer has no byte. *)
Definition readRange (c : Container d) (name : string) (offset : Z)
    (destBuffer : list Byte.byte) : list Byte.byte * error :=
  match GetProperties d c name with
  | Err e => (destBuffer, Some e)
  | Ok props =>
      match ContentLength props with
      | None =>
          (destBuffer,
           Some (OtherError "expected content length but got none for blob"))
      | Some contentLength =>
          match DownloadBuffer d c name offset
                  (rangeCount (Z.of_nat (length destBuffer)) contentLength offset) with
          | Err e => (destBuffer, Some e)
          | Ok filled =>
              if Nat.eqb (length destBuffer) 0 then (filled, Some EOF)
              else (filled, None)
          end
      end
  end.

(** [ReadRange]: [offset] is a [uint64] and is converted to [int64]. *)
Definition ReadRange (c : Container d) (name : string) (keypath : KeyPath)
    (offset : Z) (buffer : list Byte.byte) : list Byte.byte * error :=
  let keypath := KeyPathWithPrefix d keypath (Prefix rw) in
  let object := ObjectFileName d keypath name in
  let '(filled, err) := readRange c object (int offset) buffer in
  if non_nil err then (filled, readError err) else (filled, None).

(** [Read]: the bytes, their number and the error. *)
Definition Read (c : Container d) (name : string) (keypath : KeyPath)
  : option (list Byte.byte) * Z * error :=
  let keypath := KeyPathWithPrefix d keypath (Prefix rw) in
  let object := ObjectFileName d keypath name in
  let '(b, _, err) := readAll c object in
  if non_nil err then (None, 0, readError err)
  else (Some b, int (Z.of_nat (length b)), None).

End Calls.

(** An in-memory container: every blob has its bytes and an ETag, and
    the ETag of an upload is the number of uploads so far. *)
Record memContainer : Type := {
  blobs : gmap string (list Byte.byte * string);
  uploads : nat
}.

Definition memDeps : Deps :=
  {| KeyPathWithPrefix := λ keypath prefix,
       if String.eqb prefix "" then keypath else prefix :: keypath;
     ObjectFileName := λ keypath name,
       foldr (λ dir acc, dir +:+ "/" +:+ acc) name keypath;
     Container := memContainer;
     GetProperties := λ c name,
       match blobs c !! name with
       | Some (b, t) =>
           Ok {| ContentLength := Some (Z.of_nat (length b)); ETag := Some t |}
       | None => Err (ResponseError BlobNotFound)
       end;
     DownloadBuffer := λ c name offset count,
       match blobs c !! name with
       | Some (b, _) => Ok b
       | None => Err (ResponseError BlobNotFound)
       end;
     UploadStream := λ c name src,
       ({| blobs := <[name := (src, pretty (S (uploads c)))]> (blobs c);
           uploads := S (uploads c) |}, None);
     getBlobClient := λ name, None;
     DeleteBlob := λ c name,
       match blobs c !! name with
       | Some _ => ({| blobs := delete name (blobs c); uploads := uploads c |}, None)
       | None => (c, Some (ResponseError BlobNotFound))
       end |}.

End azure.

(** * Package frontend: the search progress sink *)

(** [tempopb.SearchMetrics].  The message is declared in package
    [tempopb]; [newSearchProgress] converts to [uint32], [uint64] and
    [uint32] when it fills [TotalBlocks], [TotalBlockBytes] and
    [TotalJobs], and the remaining counters have the widths of the
    message declaration: [InspectedTraces] and [CompletedJobs] 32 bits,
    [InspectedBytes] 64 bits, all unsigned. *)
Record SearchMetrics : Type := {
  InspectedTraces : Z;
  InspectedBytes : Z;
  TotalBlocks : Z;
  CompletedJobs : Z;
  TotalJobs : Z;
  TotalBlockBytes : Z
}.

(** Addresses of [SearchMetrics] structs; the heap is a bump allocator. *)
Abbreviation loc := nat.

Inductive outcome (A : Type) : Type :=
  | Returns (a : A)
  | Panics.
Arguments Returns {A} a.
Arguments Panics {A}.

Section Sharder.

(** What a trace's search metadata carries besides its identifier, and
    how two records of one trace are reconciled; both belong to packages
    [tempopb] and [traceql] and are left open. *)
Variable P : Type.
Variable combineSearchResults : P → P → P.

(** [tempopb.TraceSearchMetadata].  Records are values here: the
    combiner, as modelled, keeps what it is given and shares no pointer
    with its callers. *)
Record TraceSearchMetadata : Type := {
  TraceID : string;
  payload : P
}.

(** Modelled from the spec: [traceql.MetadataCombiner], whose code is not
    part of these sources.  The combiner owns the deduplicated result
    set: one record per trace identifier. *)
Record MetadataCombiner : Type := { trs : gmap string P }.

(** Modelled from the spec: [traceql.NewMetadataCombiner], the combiner
    of a fresh sink, with no entry. *)
Definition NewMetadataCombiner : MetadataCombiner := {| trs := ∅ |}.

(** Modelled from the spec: [MetadataCombiner.AddMetadata] merges one
    record; when a record with the same trace identifier is present the
    new one is merged into it, never added beside it. *)
Definition AddMetadata (c : MetadataCombiner) (new : TraceSearchMetadata)
  : MetadataCombiner :=
  match trs c !! TraceID new with
  | Some existing =>
      {| trs := <[TraceID new := combineSearchResults existing (payload new)]> (trs c) |}
  | None => {| trs := <[TraceID new := payload new]> (trs c) |}
  end.

(** Modelled from the spec: [MetadataCombiner.Count], the number of
    distinct entries. *)
Definition Count (c : MetadataCombiner) : Z := Z.of_nat (size (trs c)).

(** Modelled from the spec: [MetadataCombiner.Metadata], the entries as
    a sequence of its own, in an order that the identifiers fix and the
    order of arrival does not influence. *)
Definition Metadata (c : MetadataCombiner) : list TraceSearchMetadata :=
  (λ kp, {| TraceID := kp.1; payload := kp.2 |}) <$> map_to_list (trs c).

(** [tempopb.SearchResponse]: [Metrics] is a pointer, possibly nil. *)
Record SearchResponse : Type := {
  Traces : list TraceSearchMetadata;
  Metrics : option loc
}.

(** [searchProgress].  [ctx] and [mtx] are not fields here: what
    [r.ctx.Err()] answers is [ctxErr] of the [World], and every method
    holds the mutex from entry to exit, so a call is one step. *)
Record searchProgress : Type := {
  err : error;
  statusCode : Z;
  statusMsg : string;
  resultsCombiner : MetadataCombiner;
  resultsMetrics : loc;
  finishedRequests : Z;
  limit : Z
}.

(** [shardedSearchResults].  [result] builds it and the response inside
    it afresh and keeps no pointer to either; they are values here. *)
Record shardedSearchResults : Type := {
  response : SearchResponse;
  res_statusCode : Z;
  res_statusMsg : string;
  res_err : error;
  res_finishedRequests : Z
}.

Record World : Type := {
  heap : list SearchMetrics;
  ctxErr : error;
  r : searchProgress
}.

(** *** Field updates *)

Definition with_r (f : searchProgress → searchProgress) (w : World) : World :=
  {| heap := heap w; ctxErr := ctxErr w; r := f (r w) |}.

Definition with_heap (f : list SearchMetrics → list SearchMetrics) (w : World)
  : World :=
  {| heap := f (heap w); ctxErr := ctxErr w; r := r w |}.

Definition set_status (code : Z) (msg : string) (s : searchProgress)
  : searchProgress :=
  {| err := err s; statusCode := code; statusMsg := msg;
     resultsCombiner := resultsCombiner s; resultsMetrics := resultsMetrics s;
     finishedRequests := finishedRequests s; limit := limit s |}.

Definition set_err (e : error) (s : searchProgress) : searchProgress :=
  {| err := e; statusCode := statusCode s; statusMsg := statusMsg s;
     resultsCombiner := resultsCombiner s; resultsMetrics := resultsMetrics s;
     finishedRequests := finishedRequests s; limit := limit s |}.

Definition set_resultsCombiner (c : MetadataCombiner) (s : searchProgress)
  : searchProgress :=
  {| err := err s; statusCode := statusCode s; statusMsg := statusMsg s;
     resultsCombiner := c; resultsMetrics := resultsMetrics s;
     finishedRequests := finishedRequests s; limit := limit s |}.

Definition set_finishedRequests (n : Z) (s : searchProgress) : searchProgress :=
  {| err := err s; statusCode := statusCode s; statusMsg := statusMsg s;
     resultsCombiner := resultsCombiner s; resultsMetrics := resultsMetrics s;
     finishedRequests := n; limit := limit s |}.

Definition set_InspectedBytes (n : Z) (m : SearchMetrics) : SearchMetrics :=
  {| InspectedTraces := InspectedTraces m; InspectedBytes := n;
     TotalBlocks := TotalBlocks m; CompletedJobs := CompletedJobs m;
     TotalJobs := TotalJobs m; TotalBlockBytes := TotalBlockBytes m |}.

Definition set_InspectedTraces (n : Z) (m : SearchMetrics) : SearchMetrics :=
  {| InspectedTraces := n; InspectedBytes := InspectedBytes m;
     TotalBlocks := TotalBlocks m; CompletedJobs := CompletedJobs m;
     TotalJobs := TotalJobs m; TotalBlockBytes := TotalBlockBytes m |}.

Definition set_CompletedJobs (n : Z) (m : SearchMetrics) : SearchMetrics :=
  {| InspectedTraces := InspectedTraces m; InspectedBytes := InspectedBytes m;
     TotalBlocks := TotalBlocks m; CompletedJobs := n;
     TotalJobs := TotalJobs m; TotalBlockBytes := TotalBlockBytes m |}.

(** *** Computations that read and write the world and may panic *)

Definition M (A : Type) : Type := World → outcome A * World.

#[local] Instance M_ret : MRet M := λ A a w, (Returns a, w).

#[local] Instance M_bind : MBind M :=
  λ A B k m w, match m w with
               | (Returns a, w') => k a w'
               | (Panics, w') => (Panics, w')
               end.

Definition panic {A} : M A := λ w, (Panics, w).

Definition get_r : M searchProgress := λ w, (Returns (r w), w).

Definition modify_r (f : searchProgress → searchProgress) : M unit :=
  λ w, (Returns tt, with_r f w).

(** [*p] for reading: a nil pointer panics (so does an address that was
    never allocated, which no Go program can hold). *)
Definition load (p : option loc) : M SearchMetrics :=
  λ w, match p with
       | Some l => match heap w !! l with
                   | Some m => (Returns m, w)
                   | None => (Panics, w)
                   end
       | None => (Panics, w)
       end.

Definition store (l : loc) (m : SearchMetrics) : M unit :=
  λ w, (Returns tt, with_heap (λ h, <[l := m]> h) w).

(** [&tempopb.SearchMetrics{...}] *)
Definition alloc (m : SearchMetrics) : M loc :=
  λ w, (Returns (length (heap w)), with_heap (λ h, h ++ [m]) w).

(** *** The sink *)

(** [newSearchProgress(ctx, limit, totalJobs, totalBlocks, totalBlockBytes)],
    called with the objects [h] already on the heap and a context whose
    [Err()] is [cerr]. *)
Definition newSearchProgress (h : list SearchMetrics) (cerr : error)
    (limit totalJobs totalBlocks totalBlockBytes : Z) : World :=
  {| heap := h ++ [ {| InspectedTraces := 0; InspectedBytes := 0;
                       TotalBlocks := uint32 totalBlocks;
                       CompletedJobs := 0;
                       TotalJobs := uint32 totalJobs;
                       TotalBlockBytes := uint64 totalBlockBytes |} ];
     ctxErr := cerr;
     r := {| err := None; statusCode := StatusOK; statusMsg := "";
             resultsCombiner := NewMetadataCombiner;
             resultsMetrics := length h;
             finishedRequests := 0; limit := limit |} |}.

(** [setStatus]: both fields are overwritten, no validation. *)
Definition setStatus (statusCode : Z) (statusMsg : string) : M unit :=
  modify_r (set_status statusCode statusMsg).

(** [setError]: [r.err = err], also when [err] is nil. *)
Definition setError (err : error) : M unit :=
  modify_r (set_err err).

(** [addResponse], statement by statement: the loop over [res.Traces]
    (a nil [res] panics there); the two [+=] on the sink's metrics, each
    reading [res.Metrics] (a nil [Metrics] panics at the first);
    [CompletedJobs++]; [finishedRequests++].  Every read and write of a
    metrics struct goes through the heap, so a response whose [Metrics]
    is the sink's own struct is covered. *)
Definition addResponse (res : option SearchResponse) : M unit :=
  match res with
  | None => panic
  | Some res =>
      modify_r (λ s, set_resultsCombiner
                       (foldl AddMetadata (resultsCombiner s) (Traces res)) s);;
      s ← get_r;
      a ← load (Some (resultsMetrics s));
      b ← load (Metrics res);
      store (resultsMetrics s)
            (set_InspectedBytes (uint64 (InspectedBytes a + InspectedBytes b)) a);;
      a ← load (Some (resultsMetrics s));
      b ← load (Metrics res);
      store (resultsMetrics s)
            (set_InspectedTraces (uint32 (InspectedTraces a + InspectedTraces b)) a);;
      a ← load (Some (resultsMetrics s));
      store (resultsMetrics s) (set_CompletedJobs (uint32 (CompletedJobs a + 1)) a);;
      modify_r (λ s, set_finishedRequests (int (finishedRequests s + 1)) s)
  end.

(** [internalShouldQuit]: the four tests in the order of the source;
    [/] on Go integers truncates toward zero. *)
Definition internalShouldQuit (w : World) : bool :=
  if non_nil (err (r w)) then true
  else if non_nil (ctxErr w) then true
  else if negb (Z.quot (statusCode (r w)) 100 =? 2) then true
  else if Count (resultsCombiner (r w)) >? limit (r w) then true
  else false.

(** [shouldQuit]: [internalShouldQuit] under the lock. *)
Definition shouldQuit : M bool := λ w, (Returns (internalShouldQuit w), w).

(** [result]: the four scalar fields are copied, the six metrics are
    copied into a new struct, and [Traces] is what [Metadata()] returns. *)
Definition result : M shardedSearchResults :=
  s ← get_r;
  m ← load (Some (resultsMetrics s));
  l ← alloc {| InspectedTraces := InspectedTraces m;
               InspectedBytes := InspectedBytes m;
               TotalBlocks := TotalBlocks m;
               CompletedJobs := CompletedJobs m;
               TotalJobs := TotalJobs m;
               TotalBlockBytes := TotalBlockBytes m |};
  mret {| response := {| Traces := Metadata (resultsCombiner s);
                        Metrics := Some l |};
         res_statusCode := statusCode s;
         res_statusMsg := statusMsg s;
         res_err := err s;
         res_finishedRequests := finishedRequests s |}.

(** *** Runs of calls against one sink *)

(** What the scatter controller and the environment can do to a sink:
    the five methods, and the context reporting an error from now on
    (cancellation or deadline). *)
Inductive call : Type :=
  | CallSetStatus (statusCode : Z) (statusMsg : string)
  | CallSetError (err : error)
  | CallAddResponse (res : option SearchResponse)
  | CallShouldQuit
  | CallResult
  | CtxDone (e : errval).

Definition step (c : call) : M unit :=
  match c with
  | CallSetStatus code msg => setStatus code msg
  | CallSetError e => setError e
  | CallAddResponse res => addResponse res
  | CallShouldQuit => shouldQuit;; mret tt
  | CallResult => result;; mret tt
  | CtxDone e =>
      λ w, (Returns tt, {| heap := heap w; ctxErr := Some e; r := r w |})
  end.

(** The world a call leaves behind, whether it returned or panicked
    (the deferred unlock runs in both cases, so the sink stays usable). *)
Definition after (c : call) (w : World) : World := (step c w).2.

Definition run (cs : list call) (w : World) : World :=
  foldl (λ w c, after c w) w cs.

Definition returned {A} (o : outcome A * World) : bool :=
  match o.1 with Returns _ => true | Panics => false end.

(** Number of [addResponse] calls of a run that returned. *)
Fixpoint addResponsesReturned (cs : list call) (w : World) : nat :=
  match cs with
  | [] => 0%nat
  | c :: cs =>
      ((match c with
        | CallAddResponse res => if returned (addResponse res w) then 1 else 0
        | _ => 0
        end) + addResponsesReturned cs (after c w))%nat
  end.

(** *** What a caller sees in a snapshot *)

Record Snapshot : Type := {
  snap_statusCode : Z;
  snap_statusMsg : string;
  snap_err : error;
  snap_finishedRequests : Z;
  snap_metrics : SearchMetrics;
  snap_entries : list TraceSearchMetadata
}.

(** Reading every field of a [shardedSearchResults] through the heap [h]. *)
Definition observe (h : list SearchMetrics) (S : shardedSearchResults)
  : option Snapshot :=
  match Metrics (response S) with
  | Some l =>
      match h !! l with
      | Some m =>
          Some {| snap_statusCode := res_statusCode S;
                  snap_statusMsg := res_statusMsg S;
                  snap_err := res_err S;
                  snap_finishedRequests := res_finishedRequests S;
                  snap_metrics := m;
                  snap_entries := Traces (response S) |}
      | None => None
      end
  | None => None
  end.

(** The metrics struct the sink points to. *)
Definition sinkMetrics (w : World) : option SearchMetrics :=
  heap w !! resultsMetrics (r w).

Definition planTotals (m : SearchMetrics) : Z * Z * Z :=
  (TotalJobs m, TotalBlocks m, TotalBlockBytes m).

(** The four stop conditions of [internalShouldQuit], as propositions. *)
Definition stopCondition (w : World) : Prop :=
  err (r w) ≠ None ∨ ctxErr w ≠ None ∨
  Z.quot (statusCode (r w)) 100 ≠ 2 ∨
  Count (resultsCombiner (r w)) > limit (r w).

(** [addResponse] on a sink whose metrics are [a], fed a response whose
    metrics are [b]. *)
Definition addMetrics (a b : SearchMetrics) : SearchMetrics :=
  {| InspectedTraces := uint32 (InspectedTraces a + InspectedTraces b);
     InspectedBytes := uint64 (InspectedBytes a + InspectedBytes b);
     TotalBlocks := TotalBlocks a;
     CompletedJobs := uint32 (CompletedJobs a + 1);
     TotalJobs := TotalJobs a;
     TotalBlockBytes := TotalBlockBytes a |}.

(** The sink's pointer is an allocated address. *)
Definition wf (w : World) : Prop :=
  (resultsMetrics (r w) < length (heap w))%nat.

(** What a pointer reads as, if anything. *)
Definition deref (h : list SearchMetrics) (p : option loc) : option SearchMetrics :=
  match p with Some l => h !! l | None => None end.

(** The traces [addResponse] ranges over. *)
Definition tracesOf (res : option SearchResponse) : list TraceSearchMetadata :=
  match res with Some res => Traces res | None => [] end.

(** The loop of [addResponse]: every trace goes through [AddMetadata]. *)
Definition mergeTraces (res : SearchResponse) (s : searchProgress) : searchProgress :=
  set_resultsCombiner (foldl AddMetadata (resultsCombiner s) (Traces res)) s.

(** The sink has counted [n] returned [addResponse] calls. *)
Definition counted (w : World) (n : Z) : Prop :=
  finishedRequests (r w) = int n ∧
  ∃ m, sinkMetrics w = Some m ∧ CompletedJobs m = uint32 n.

(** What a run makes of the status and of the error: the arguments of
    its last [setStatus] and of its last [setError], if it has any. *)
Definition lastStatus (cs : list call) (init : Z * string) : Z * string :=
  foldl (λ acc c, match c with
                  | CallSetStatus code msg => (code, msg)
                  | _ => acc
                  end) init cs.

Definition lastError (cs : list call) (init : error) : error :=
  foldl (λ acc c, match c with CallSetError e => e | _ => acc end) init cs.

(** The inspected bytes and traces a call brings, read from the metrics
    structs [h] of the caller. *)
Definition inspectedOf (h : list SearchMetrics) (c : call) : Z * Z :=
  match c with
  | CallAddResponse (Some res) =>
      match deref h (Metrics res) with
      | Some b => (InspectedBytes b, InspectedTraces b)
      | None => (0, 0)
      end
  | _ => (0, 0)
  end.

Definition inspectedBytesOf (h : list SearchMetrics) (cs : list call) : Z :=
  foldr (λ c acc, (inspectedOf h c).1 + acc) 0 cs.

Definition inspectedTracesOf (h : list SearchMetrics) (cs : list call) : Z :=
  foldr (λ c acc, (inspectedOf h c).2 + acc) 0 cs.

(** The response of the call, if it has one, points to one of the
    structs [h] (or has a nil [Metrics]). *)
Definition callerOwned (h : list SearchMetrics) (c : call) : Prop :=
  match c with
  | CallAddResponse (Some res) =>
      match Metrics res with
      | Some l => (l < length h)%nat
      | None => True
      end
  | _ => True
  end.

(** The traces a call hands to the combiner. *)
Definition tracesOfCall (c : call) : list TraceSearchMetadata :=
  match c with
  | CallAddResponse res => tracesOf res
  | _ => []
  end.

(** ** Properties of the sink *)

(** Runs the monadic plumbing of a method body as far as it computes. *)
Ltac run_M :=
  unfold mbind, M_bind, mret, M_ret, modify_r, get_r, load, store, alloc, panic,
    with_r, with_heap;
  cbn [heap ctxErr r fst snd err statusCode statusMsg resultsCombiner
       resultsMetrics finishedRequests limit set_status set_err
       set_resultsCombiner set_finishedRequests].

Lemma addResponse_nil w : addResponse None w = (Panics, w).
Proof. reflexivity. Qed.

Lemma addResponse_nil_metrics w res :
  Metrics res = None → wf w →
  addResponse (Some res) w =
    (Panics, with_r (λ s, set_resultsCombiner
                            (foldl AddMetadata (resultsCombiner s) (Traces res)) s) w).
Proof.
  intros Hm Hwf. unfold wf in Hwf.
  apply lookup_lt_is_Some_2 in Hwf as [a Ha].
  unfold addResponse. run_M. rewrite Ha, Hm. reflexivity.
Qed.

Lemma addResponse_returns w res l a b :
  Metrics res = Some l → sinkMetrics w = Some a → heap w !! l = Some b →
  addResponse (Some res) w =
    (Returns tt,
     {| heap := <[resultsMetrics (r w) := addMetrics a b]> (heap w);
        ctxErr := ctxErr w;
        r := set_finishedRequests (int (finishedRequests (r w) + 1))
               (set_resultsCombiner
                  (foldl AddMetadata (resultsCombiner (r w)) (Traces res)) (r w)) |}).
Proof.
  unfold sinkMetrics. intros Hm Ha Hb.
  pose proof (lookup_lt_Some _ _ _ Ha) as Hlt.
  unfold addResponse. run_M. rewrite Ha, Hm. run_M. rewrite Hb. run_M.
  rewrite list_lookup_insert_eq by done. run_M.
  destruct (decide (l = resultsMetrics (r w))) as [->|Hne].
  - rewrite list_lookup_insert_eq by done. run_M.
    rewrite list_lookup_insert_eq by (rewrite length_insert; done). run_M.
    rewrite !list_insert_insert_eq.
    replace b with a by congruence. reflexivity.
  - rewrite list_lookup_insert_ne by done. rewrite Hb. run_M.
    rewrite list_lookup_insert_eq by (rewrite length_insert; done). run_M.
    rewrite !list_insert_insert_eq. reflexivity.
Qed.

(** [addResponse] in closed form: it returns exactly when the sink's
    metrics and the response's metrics can both be read; otherwise it
    panics after the traces were merged and before any counter moved. *)
Lemma addResponse_spec w res :
  addResponse (Some res) w =
    match sinkMetrics w, deref (heap w) (Metrics res) with
    | Some a, Some b =>
        (Returns tt,
         {| heap := <[resultsMetrics (r w) := addMetrics a b]> (heap w);
            ctxErr := ctxErr w;
            r := set_finishedRequests (int (finishedRequests (r w) + 1))
                   (mergeTraces res (r w)) |})
    | _, _ => (Panics, with_r (mergeTraces res) w)
    end.
Proof.
  destruct (sinkMetrics w) as [a|] eqn:Ha.
  - destruct (Metrics res) as [l|] eqn:Hm; cbn [deref].
    + destruct (heap w !! l) as [b|] eqn:Hb.
      * by apply addResponse_returns with l.
      * unfold sinkMetrics in Ha. unfold addResponse. run_M.
        rewrite Ha, Hm. run_M. by rewrite Hb.
    + apply addResponse_nil_metrics; [done|].
      unfold wf. by eapply lookup_lt_Some.
  - unfold sinkMetrics in Ha. unfold addResponse. run_M. by rewrite Ha.
Qed.

Lemma result_spec w :
  result w =
    match sinkMetrics w with
    | Some m =>
        (Returns {| response := {| Traces := Metadata (resultsCombiner (r w));
                                   Metrics := Some (length (heap w)) |};
                    res_statusCode := statusCode (r w);
                    res_statusMsg := statusMsg (r w);
                    res_err := err (r w);
                    res_finishedRequests := finishedRequests (r w) |},
         with_heap (λ h, h ++ [m]) w)
    | None => (Panics, w)
    end.
Proof.
  unfold result, sinkMetrics. run_M.
  destruct (heap w !! resultsMetrics (r w)) as [m|]; [|done].
  by destruct m.
Qed.

(** The world after each kind of call. *)
Lemma after_cases c w :
  (heap (after c w) = heap w ∧
     resultsMetrics (r (after c w)) = resultsMetrics (r w) ∧
     limit (r (after c w)) = limit (r w) ∧
     finishedRequests (r (after c w)) = finishedRequests (r w) ∧
     addResponsesReturned [c] w = 0%nat) ∨
  (∃ res a b, c = CallAddResponse (Some res) ∧
     sinkMetrics w = Some a ∧ deref (heap w) (Metrics res) = Some b ∧
     addResponsesReturned [c] w = 1%nat ∧
     after c w =
       {| heap := <[resultsMetrics (r w) := addMetrics a b]> (heap w);
          ctxErr := ctxErr w;
          r := set_finishedRequests (int (finishedRequests (r w) + 1))
                 (mergeTraces res (r w)) |}) ∨
  (∃ m, c = CallResult ∧ sinkMetrics w = Some m ∧
     after c w = with_heap (λ h, h ++ [m]) w).
Proof.
  unfold after. destruct c as [code msg|e|[res|]| | |e];
    cbn [step addResponsesReturned].
  - by left.
  - by left.
  - rewrite addResponse_spec.
    destruct (sinkMetrics w) as [a|] eqn:Ha; [|by left].
    destruct (deref (heap w) (Metrics res)) as [b|] eqn:Hb; [|by left].
    right; left. by exists res, a, b.
  - by left.
  - by left.
  - unfold mbind, M_bind. rewrite result_spec.
    destruct (sinkMetrics w) as [m|] eqn:Hm; [|by left].
    right; right. by exists m.
  - by left.
Qed.

Lemma after_resultsMetrics c w :
  resultsMetrics (r (after c w)) = resultsMetrics (r w).
Proof.
  destruct (after_cases c w) as [(_ & H & _)|[(res & a & b & _ & _ & _ & _ & ->)|(m & _ & _ & ->)]];
    done.
Qed.

Lemma after_limit c w : limit (r (after c w)) = limit (r w).
Proof.
  destruct (after_cases c w) as [(_ & _ & H & _)|[(res & a & b & _ & _ & _ & _ & ->)|(m & _ & _ & ->)]];
    done.
Qed.

Lemma after_heap_length c w :
  (length (heap w) ≤ length (heap (after c w)))%nat.
Proof.
  destruct (after_cases c w) as [(-> & _)|[(res & a & b & _ & _ & _ & _ & ->)|(m & _ & _ & ->)]];
    cbn [heap with_heap]; rewrite ?length_insert, ?length_app; lia.
Qed.

(** A call writes to no allocated struct other than the sink's own. *)
Lemma after_frame c w l :
  l ≠ resultsMetrics (r w) → (l < length (heap w))%nat →
  heap (after c w) !! l = heap w !! l.
Proof.
  intros Hne Hlt.
  destruct (after_cases c w) as [(-> & _)|[(res & a & b & _ & _ & _ & _ & ->)|(m & _ & _ & ->)]];
    cbn [heap with_heap].
  - done.
  - by rewrite list_lookup_insert_ne.
  - by rewrite lookup_app_l.
Qed.

(** A call leaves the plan totals of the sink's metrics as they were. *)
Lemma after_sinkMetrics c w m :
  sinkMetrics w = Some m →
  ∃ m', sinkMetrics (after c w) = Some m' ∧ planTotals m' = planTotals m.
Proof.
  intros Hm. pose proof (lookup_lt_Some _ _ _ Hm) as Hlt.
  unfold sinkMetrics. rewrite after_resultsMetrics.
  destruct (after_cases c w) as [(-> & _)|[(res & a & b & _ & Ha & _ & _ & ->)|(m0 & _ & _ & ->)]];
    cbn [heap with_heap].
  - by exists m.
  - rewrite list_lookup_insert_eq by done. eexists; split; [done|].
    rewrite Hm in Ha. by injection Ha as <-.
  - rewrite lookup_app_l by done. by exists m.
Qed.

Lemma after_wf c w : wf w → wf (after c w).
Proof.
  unfold wf. rewrite after_resultsMetrics.
  pose proof (after_heap_length c w). lia.
Qed.

Lemma run_cons c cs w : run (c :: cs) w = run cs (after c w).
Proof. reflexivity. Qed.

Lemma run_app cs1 cs2 w : run (cs1 ++ cs2) w = run cs2 (run cs1 w).
Proof. apply foldl_app. Qed.

Lemma run_resultsMetrics cs w :
  resultsMetrics (r (run cs w)) = resultsMetrics (r w).
Proof.
  revert w. induction cs as [|c cs IH]; intros w; [done|].
  by rewrite run_cons, IH, after_resultsMetrics.
Qed.

Lemma run_limit cs w : limit (r (run cs w)) = limit (r w).
Proof.
  revert w. induction cs as [|c cs IH]; intros w; [done|].
  by rewrite run_cons, IH, after_limit.
Qed.

Lemma run_wf cs w : wf w → wf (run cs w).
Proof.
  revert w. induction cs as [|c cs IH]; intros w Hwf; [done|].
  rewrite run_cons. by apply IH, after_wf.
Qed.

Lemma run_frame cs w l :
  l ≠ resultsMetrics (r w) → (l < length (heap w))%nat →
  heap (run cs w) !! l = heap w !! l.
Proof.
  revert w. induction cs as [|c cs IH]; intros w Hne Hlt; [done|].
  rewrite run_cons, IH.
  - by apply after_frame.
  - by rewrite after_resultsMetrics.
  - pose proof (after_heap_length c w). lia.
Qed.

Lemma run_sinkMetrics cs w m :
  sinkMetrics w = Some m →
  ∃ m', sinkMetrics (run cs w) = Some m' ∧ planTotals m' = planTotals m.
Proof.
  revert w m. induction cs as [|c cs IH]; intros w m Hm; [by exists m|].
  destruct (after_sinkMetrics c w m Hm) as (m1 & Hm1 & Ht1).
  destruct (IH _ _ Hm1) as (m2 & Hm2 & Ht2).
  exists m2. rewrite run_cons. split; [done|congruence].
Qed.

Lemma newSearchProgress_sinkMetrics h cerr lim tj tb tbb :
  sinkMetrics (newSearchProgress h cerr lim tj tb tbb) =
    Some {| InspectedTraces := 0; InspectedBytes := 0;
            TotalBlocks := uint32 tb; CompletedJobs := 0;
            TotalJobs := uint32 tj; TotalBlockBytes := uint64 tbb |}.
Proof.
  unfold sinkMetrics, newSearchProgress; cbn [heap r resultsMetrics].
  by rewrite lookup_app_r, Nat.sub_diag by lia.
Qed.

Lemma newSearchProgress_wf h cerr lim tj tb tbb :
  wf (newSearchProgress h cerr lim tj tb tbb).
Proof.
  unfold wf. eapply lookup_lt_Some. apply newSearchProgress_sinkMetrics.
Qed.

(** On a reachable sink [result] returns, and its snapshot reads as the
    sink's state at that moment. *)
Lemma result_returns w m :
  sinkMetrics w = Some m →
  ∃ S, result w = (Returns S, with_heap (λ h, h ++ [m]) w) ∧
       Metrics (response S) = Some (length (heap w)) ∧
       observe (heap w ++ [m]) S =
         Some {| snap_statusCode := statusCode (r w);
                 snap_statusMsg := statusMsg (r w);
                 snap_err := err (r w);
                 snap_finishedRequests := finishedRequests (r w);
                 snap_metrics := m;
                 snap_entries := Metadata (resultsCombiner (r w)) |}.
Proof.
  intros Hm. rewrite result_spec, Hm. eexists; split; [done|]. split; [done|].
  unfold observe; cbn [response Metrics].
  by rewrite lookup_app_r, Nat.sub_diag by lia.
Qed.

Lemma Count_New : Count NewMetadataCombiner = 0.
Proof. reflexivity. Qed.

Lemma status_2xx (code : Z) : Z.quot code 100 = 2 ↔ 200 ≤ code ≤ 299.
Proof.
  pose proof (Z.quot_rem' code 100) as Hqr.
  destruct (Z_le_gt_dec 0 code) as [Hpos|Hneg].
  - pose proof (Z.rem_bound_pos code 100 Hpos ltac:(lia)). lia.
  - pose proof (Z.rem_bound_pos (- code) 100 ltac:(lia) ltac:(lia)) as Hr.
    rewrite Z.rem_opp_l' in Hr. lia.
Qed.

Lemma internalShouldQuit_iff w : internalShouldQuit w = true ↔ stopCondition w.
Proof.
  unfold internalShouldQuit, stopCondition.
  destruct (err (r w)) as [e|]; cbn [non_nil]; [naive_solver|].
  destruct (ctxErr w) as [e|]; cbn [non_nil]; [naive_solver|].
  destruct (Z.eqb_spec (Z.quot (statusCode (r w)) 100) 2) as [Hq|Hq];
    cbn [negb]; [|naive_solver].
  destruct (Z.gtb_spec (Count (resultsCombiner (r w))) (limit (r w))) as [Hc|Hc].
  - split; [|done]. intros _. do 3 right. lia.
  - split; [done|]. intros [?|[?|[?|?]]]; [done|done|done|lia].
Qed.

(** C1: [shouldQuit] answers [true] exactly when an error is recorded, or
    the context reports an error, or the status code divided by 100 is
    not 2 (the code is outside 200..299), or the combiner counts more
    distinct entries than [limit].  It reads the current state only and
    changes nothing, so whatever it answered before, after any later
    calls that leave none of the four conditions standing it answers
    [false] again. *)
Theorem shouldQuit_is_level_check (w : World) :
  shouldQuit w = (Returns (internalShouldQuit w), w) ∧
  (internalShouldQuit w = true ↔
     err (r w) ≠ None ∨ ctxErr w ≠ None ∨
     Z.quot (statusCode (r w)) 100 ≠ 2 ∨
     Count (resultsCombiner (r w)) > limit (r w)) ∧
  (Z.quot (statusCode (r w)) 100 ≠ 2 ↔ ¬ (200 ≤ statusCode (r w) ≤ 299)) ∧
  (∀ later : list call,
     ¬ stopCondition (run later w) →
     shouldQuit (run later w) = (Returns false, run later w)).
Proof.
  split; [reflexivity|]. split; [apply internalShouldQuit_iff|].
  split; [by rewrite status_2xx|].
  intros later Hstop. unfold shouldQuit. f_equal. f_equal.
  apply not_true_is_false. by rewrite internalShouldQuit_iff.
Qed.

(** A sink that quit on a 500 status stops quitting once a 200 status is
    recorded. *)
Example shouldQuit_not_latched h lim tj tb tbb :
  0 ≤ lim →
  let w := newSearchProgress h None lim tj tb tbb in
  internalShouldQuit (run [CallSetStatus 500 "downstream failure"] w) = true ∧
  internalShouldQuit
    (run [CallSetStatus 500 "downstream failure"; CallSetStatus 200 "ok"] w) = false.
Proof.
  intros Hlim w. split; [reflexivity|].
  apply not_true_is_false. rewrite internalShouldQuit_iff.
  unfold stopCondition; cbn. rewrite Count_New. intros [?|[?|[?|?]]]; [done|done|done|lia].
Qed.

Lemma run_setErrors es e w :
  err (r (run ((CallSetError <$> es) ++ [CallSetError e]) w)) = e.
Proof. by rewrite run_app. Qed.

(** C7: after any calls, a sequence of [setError] calls leaves the error
    of the last one recorded, whatever the earlier ones were; the next
    snapshot carries that error; and when it is not nil [shouldQuit]
    answers [true]. *)
Theorem setError_last_wins h cerr lim tj tb tbb
    (before : list call) (es : list error) (ek : error) :
  let w := run (before ++ (CallSetError <$> es) ++ [CallSetError ek])
               (newSearchProgress h cerr lim tj tb tbb) in
  err (r w) = ek ∧
  (∃ S w', result w = (Returns S, w') ∧ res_err S = ek) ∧
  (ek ≠ None → shouldQuit w = (Returns true, w)).
Proof.
  intros w.
  assert (err (r w) = ek) as Herr.
  { unfold w. rewrite run_app. apply run_setErrors. }
  split; [done|]. split.
  - assert (wf w) as Hwf by apply run_wf, newSearchProgress_wf.
    apply lookup_lt_is_Some_2 in Hwf as [m Hm].
    rewrite result_spec. unfold sinkMetrics. rewrite Hm.
    eexists _, _. split; [done|]. done.
  - intros Hne. unfold shouldQuit. f_equal. f_equal.
    apply internalShouldQuit_iff. left. by rewrite Herr.
Qed.

(** C5: whatever calls follow the construction of a sink, and whatever
    metrics the responses fed to [addResponse] point to, the sink's
    [TotalJobs], [TotalBlocks] and [TotalBlockBytes] are the values
    [newSearchProgress] stored. *)
Theorem plan_totals_fixed_at_construction h cerr lim tj tb tbb (cs : list call) :
  let w0 := newSearchProgress h cerr lim tj tb tbb in
  ∃ m0 m,
    sinkMetrics w0 = Some m0 ∧ sinkMetrics (run cs w0) = Some m ∧
    TotalJobs m = TotalJobs m0 ∧
    TotalBlocks m = TotalBlocks m0 ∧
    TotalBlockBytes m = TotalBlockBytes m0.
Proof.
  intros w0.
  destruct (run_sinkMetrics cs w0 _ (newSearchProgress_sinkMetrics h cerr lim tj tb tbb))
    as (m & Hm & Ht).
  eexists _, m. split; [apply newSearchProgress_sinkMetrics|]. split; [done|].
  unfold planTotals in Ht. by injection Ht as -> -> ->.
Qed.

Lemma mod_fixpoint (z n : Z) : 0 < n → (z mod n = z ↔ 0 ≤ z < n).
Proof.
  intros Hn. split.
  - intros <-. by apply Z.mod_pos_bound.
  - intros Hz. by apply Z.mod_small.
Qed.

(** C10: the snapshot of a sink, after any calls, reports the plan totals
    narrowed at construction: [totalBlocks] and [totalJobs] modulo 2^32,
    [totalBlockBytes] modulo 2^64.  The reported value is the argument
    only when the argument is in range. *)
Theorem newSearchProgress_narrows_totals h cerr lim tj tb tbb (cs : list call) :
  let w := run cs (newSearchProgress h cerr lim tj tb tbb) in
  ∃ S w' snap,
    result w = (Returns S, w') ∧ observe (heap w') S = Some snap ∧
    TotalBlocks (snap_metrics snap) = tb mod 2 ^ 32 ∧
    TotalJobs (snap_metrics snap) = tj mod 2 ^ 32 ∧
    TotalBlockBytes (snap_metrics snap) = tbb mod 2 ^ 64 ∧
    (TotalBlocks (snap_metrics snap) = tb ↔ 0 ≤ tb < 2 ^ 32) ∧
    (TotalJobs (snap_metrics snap) = tj ↔ 0 ≤ tj < 2 ^ 32) ∧
    (TotalBlockBytes (snap_metrics snap) = tbb ↔ 0 ≤ tbb < 2 ^ 64).
Proof.
  intros w.
  destruct (run_sinkMetrics cs _ _ (newSearchProgress_sinkMetrics h cerr lim tj tb tbb))
    as (m & Hm & Ht).
  destruct (result_returns _ _ Hm) as (S & HS & _ & Hobs).
  unfold planTotals in Ht; cbn in Ht. injection Ht as Hj Hb Hbb.
  eexists S, _, _. split; [exact HS|]. split; [exact Hobs|].
  cbn [snap_metrics]. rewrite Hj, Hb, Hbb. unfold uint32, uint64.
  split_and!; [done..| | |]; by apply mod_fixpoint.
Qed.

(** X26: the metrics record of a snapshot is a value copy.  [result] on
    a reachable sink allocates a metrics struct of its own, not the
    sink's, and fills it with the sink's metrics of that moment; no later
    call on the sink ([addResponse] among them) writes to it, so the
    snapshot's metrics read the same after any further calls. *)
Theorem snapshot_metrics_are_a_copy h cerr lim tj tb tbb
    (before later : list call) :
  let w := run before (newSearchProgress h cerr lim tj tb tbb) in
  ∃ S w1 l m,
    result w = (Returns S, w1) ∧
    sinkMetrics w = Some m ∧
    Metrics (response S) = Some l ∧
    l ≠ resultsMetrics (r w1) ∧
    heap w1 !! l = Some m ∧
    heap (run later w1) !! l = Some m.
Proof.
  intros w.
  assert (wf w) as Hwf by apply run_wf, newSearchProgress_wf.
  pose proof Hwf as Hlt. apply lookup_lt_is_Some_2 in Hlt as [m Hm].
  destruct (result_returns w m Hm) as (S & HS & Hptr & _).
  unfold wf in Hwf.
  assert ((heap w ++ [m]) !! length (heap w) = Some m) as Hnew
    by (by rewrite lookup_app_r, Nat.sub_diag by lia).
  eexists S, _, (length (heap w)), m.
  split; [exact HS|]. split; [exact Hm|]. split; [exact Hptr|].
  cbn [with_heap heap r]. split; [lia|]. split; [exact Hnew|].
  rewrite run_frame; cbn [with_heap heap r]; [done|lia|].
  rewrite length_app; cbn; lia.
Qed.

Lemma deref_is_Some h p :
  is_Some (deref h p) ↔ ∃ l, p = Some l ∧ (l < length h)%nat.
Proof.
  destruct p as [l|]; cbn [deref].
  - rewrite lookup_lt_is_Some. split; [eauto|by intros (? & [= <-] & ?)].
  - split; [by intros [? ?]|by intros (? & ? & _)].
Qed.

(** C9: on a reachable sink [addResponse] returns exactly when it is
    given a response that is not nil and whose [Metrics] pointer is not
    nil.  Given a response with a nil [Metrics] it panics: the traces of
    the response are merged by then, but no error is recorded, the
    status is untouched and no counter has moved. *)
Theorem addResponse_panics_on_nil_metrics h cerr lim tj tb tbb
    (cs : list call) (res : option SearchResponse) :
  let w := run cs (newSearchProgress h cerr lim tj tb tbb) in
  (returned (addResponse res w) = true ↔
     ∃ res' l, res = Some res' ∧ Metrics res' = Some l ∧
               (l < length (heap w))%nat) ∧
  (res = None → addResponse res w = (Panics, w)) ∧
  (∀ res', res = Some res' → Metrics res' = None →
     addResponse res w = (Panics, with_r (mergeTraces res') w) ∧
     err (r (after (CallAddResponse res) w)) = err (r w) ∧
     statusCode (r (after (CallAddResponse res) w)) = statusCode (r w) ∧
     finishedRequests (r (after (CallAddResponse res) w)) = finishedRequests (r w) ∧
     heap (after (CallAddResponse res) w) = heap w).
Proof.
  intros w.
  assert (wf w) as Hwf by apply run_wf, newSearchProgress_wf.
  pose proof Hwf as Hlt. apply lookup_lt_is_Some_2 in Hlt as [m Hm].
  fold (sinkMetrics w) in Hm.
  split; [|split].
  - destruct res as [res'|].
    + rewrite addResponse_spec, Hm.
      destruct (deref (heap w) (Metrics res')) as [b|] eqn:Hb.
      * split; [intros _|done].
        destruct (proj1 (deref_is_Some _ _) (mk_is_Some _ _ Hb)) as (l & ? & ?).
        by exists res', l.
      * split; [done|]. intros (res'' & l & [= <-] & Hl & Hlen).
        assert (is_Some (deref (heap w) (Metrics res'))) as [? ?]
          by (apply deref_is_Some; eauto).
        congruence.
    + split; [done|]. by intros (? & ? & ? & _).
  - by intros ->.
  - intros res' -> Hnil. unfold after; cbn [step].
    rewrite addResponse_spec, Hm, Hnil. done.
Qed.

(** *** Counting *)

Lemma int_succ (x : Z) : int (int x + 1) = int (x + 1).
Proof.
  unfold int.
  replace ((x + 2 ^ 63) mod 2 ^ 64 - 2 ^ 63 + 1 + 2 ^ 63)
    with ((x + 2 ^ 63) mod 2 ^ 64 + 1) by lia.
  rewrite Zplus_mod_idemp_l. do 2 f_equal. lia.
Qed.

Lemma uint32_succ (x : Z) : uint32 (uint32 x + 1) = uint32 (x + 1).
Proof. unfold uint32. by rewrite Zplus_mod_idemp_l. Qed.

Lemma addResponsesReturned_cons c cs w :
  addResponsesReturned (c :: cs) w =
    (addResponsesReturned [c] w + addResponsesReturned cs (after c w))%nat.
Proof. cbn [addResponsesReturned]. lia. Qed.

Lemma after_counted c w n :
  counted w n → counted (after c w) (n + Z.of_nat (addResponsesReturned [c] w)).
Proof.
  intros (Hf & m & Hm & Hc). unfold counted, sinkMetrics.
  rewrite after_resultsMetrics.
  destruct (after_cases c w)
    as [(-> & _ & _ & -> & ->)|[(res & a & b & _ & Ha & _ & -> & ->)|(m0 & -> & _ & ->)]];
    cbn [heap with_heap r finishedRequests set_finishedRequests mergeTraces
         set_resultsCombiner addResponsesReturned Nat.add Z.of_nat].
  - rewrite Z.add_0_r. eauto.
  - pose proof (lookup_lt_Some _ _ _ Hm).
    rewrite list_lookup_insert_eq by done.
    rewrite Hm in Ha. injection Ha as <-.
    split; [by rewrite Hf, int_succ|].
    eexists; split; [done|]. cbn [CompletedJobs addMetrics].
    by rewrite Hc, uint32_succ.
  - pose proof (lookup_lt_Some _ _ _ Hm).
    rewrite lookup_app_l by done. rewrite Z.add_0_r. eauto.
Qed.

Lemma run_counted cs w n :
  counted w n → counted (run cs w) (n + Z.of_nat (addResponsesReturned cs w)).
Proof.
  revert w n. induction cs as [|c cs IH]; intros w n Hn.
  - cbn. by rewrite Z.add_0_r.
  - rewrite run_cons, addResponsesReturned_cons, Nat2Z.inj_add, Z.add_assoc.
    by apply IH, after_counted.
Qed.

Lemma newSearchProgress_counted h cerr lim tj tb tbb :
  counted (newSearchProgress h cerr lim tj tb tbb) 0.
Proof.
  split; [reflexivity|]. eexists. split; [apply newSearchProgress_sinkMetrics|].
  reflexivity.
Qed.

Lemma int_small (n : Z) : 0 ≤ n < 2 ^ 63 → int n = n.
Proof. intros Hn. unfold int. rewrite Z.mod_small by lia. lia. Qed.

(** The snapshot of a sink that has counted [n] calls. *)
Lemma counted_snapshot w n :
  counted w n →
  ∃ S w' snap,
    result w = (Returns S, w') ∧ observe (heap w') S = Some snap ∧
    snap_finishedRequests snap = int n ∧
    CompletedJobs (snap_metrics snap) = uint32 n.
Proof.
  intros (Hf & m & Hm & Hc).
  destruct (result_returns w m Hm) as (S & HS & _ & Hobs).
  by eexists S, _, _.
Qed.

Lemma after_readable c w p :
  is_Some (deref (heap w) p) → is_Some (deref (heap (after c w)) p).
Proof.
  rewrite !deref_is_Some. intros (l & -> & Hl). exists l. split; [done|].
  pose proof (after_heap_length c w). lia.
Qed.

(** Feeding one readable response [n] times: every call returns. *)
Lemma addResponsesReturned_repeat res n w :
  is_Some (sinkMetrics w) → is_Some (deref (heap w) (Metrics res)) →
  addResponsesReturned (repeat (CallAddResponse (Some res)) n) w = n.
Proof.
  revert w. induction n as [|n IH]; intros w [a Ha] [b Hb]; [done|].
  change (repeat ?c (S n)) with (c :: repeat c n).
  rewrite addResponsesReturned_cons, IH.
  - cbn [addResponsesReturned]. by rewrite addResponse_spec, Ha, Hb.
  - destruct (after_sinkMetrics (CallAddResponse (Some res)) w a Ha) as (m & -> & _).
    done.
  - by apply after_readable.
Qed.

(** C6, amended: every [addResponse] call that returns adds one to
    [finishedRequests] (a 64-bit [int]) and one to [CompletedJobs] (a
    32-bit unsigned counter).  After any calls on a fresh sink, [N] of
    them [addResponse] calls that returned, the snapshot has
    [finishedRequests = int N] and [CompletedJobs = N mod 2^32]; both
    are [N] as long as [N < 2^32]. *)
Theorem counters_count_returned_addResponses h cerr lim tj tb tbb
    (cs : list call) :
  let w0 := newSearchProgress h cerr lim tj tb tbb in
  let N := Z.of_nat (addResponsesReturned cs w0) in
  (∀ res m, returned (addResponse res (run cs w0)) = true →
     sinkMetrics (run cs w0) = Some m →
     finishedRequests (r (after (CallAddResponse res) (run cs w0))) =
       int (finishedRequests (r (run cs w0)) + 1) ∧
     CompletedJobs <$> sinkMetrics (after (CallAddResponse res) (run cs w0)) =
       Some (uint32 (CompletedJobs m + 1))) ∧
  ∃ S w' snap,
    result (run cs w0) = (Returns S, w') ∧ observe (heap w') S = Some snap ∧
    snap_finishedRequests snap = int N ∧
    CompletedJobs (snap_metrics snap) = N mod 2 ^ 32 ∧
    (N < 2 ^ 32 →
       snap_finishedRequests snap = N ∧ CompletedJobs (snap_metrics snap) = N).
Proof.
  intros w0 N. split.
  - intros res m Hret Hm.
    destruct (after_cases (CallAddResponse res) (run cs w0))
      as [(_ & _ & _ & _ & H0)|[(res' & a & b & _ & Ha & _ & _ & ->)|(m0 & [=] & _)]].
    + cbn [addResponsesReturned] in H0. rewrite Hret in H0. done.
    + unfold sinkMetrics; cbn [heap r finishedRequests set_finishedRequests
        mergeTraces set_resultsCombiner resultsMetrics].
      pose proof (lookup_lt_Some _ _ _ Hm).
      rewrite list_lookup_insert_eq by done.
      rewrite Hm in Ha. by injection Ha as <-.
  - pose proof (run_counted cs w0 0 (newSearchProgress_counted _ _ _ _ _ _)) as Hc.
    rewrite Z.add_0_l in Hc. fold N in Hc.
    destruct (counted_snapshot _ _ Hc) as (S & w' & snap & HS & Hobs & Hf & Hj).
    exists S, w', snap. split_and!; [done..|].
    intros HN. rewrite Hf, Hj. unfold uint32.
    rewrite int_small, Z.mod_small by lia. done.
Qed.

(** *** The combiner inside the sink *)

Lemma length_Metadata c : Z.of_nat (length (Metadata c)) = Count c.
Proof. unfold Metadata, Count. by rewrite length_fmap, length_map_to_list. Qed.

Lemma after_addResponse_combiner res w :
  resultsCombiner (r (after (CallAddResponse res) w)) =
    foldl AddMetadata (resultsCombiner (r w)) (tracesOf res).
Proof.
  unfold after; cbn [step]. destruct res as [res|]; [|done].
  rewrite addResponse_spec.
  by destruct (sinkMetrics w), (deref (heap w) (Metrics res)).
Qed.

Lemma run_addResponses_combiner rs w :
  resultsCombiner (r (run (CallAddResponse <$> rs) w)) =
    foldl AddMetadata (resultsCombiner (r w)) (rs ≫= tracesOf).
Proof.
  revert w. induction rs as [|res rs IH]; intros w; [done|].
  rewrite fmap_cons, run_cons, IH, after_addResponse_combiner.
  by rewrite bind_cons, foldl_app.
Qed.

(** C4: the limit test is strict.  With no error, a live context and a
    2xx status, a sink whose combiner counts exactly [limit] entries
    does not quit.  [result] lists every entry of the combiner, however
    [Count] compares to [limit].  With [limit = 3]: merging traces A and
    B gives count 2 and [shouldQuit] false; merging C and D next gives
    count 4 and [shouldQuit] true, and the snapshot holds all four. *)
Theorem limit_is_strict :
  (∀ w, err (r w) = None → ctxErr w = None →
        Z.quot (statusCode (r w)) 100 = 2 →
        Count (resultsCombiner (r w)) = limit (r w) →
        shouldQuit w = (Returns false, w)) ∧
  (∀ w m, sinkMetrics w = Some m →
     ∃ S w', result w = (Returns S, w') ∧
       Z.of_nat (length (Traces (response S))) = Count (resultsCombiner (r w))) ∧
  (∀ (pa pb pc pd : P) (m : SearchMetrics) (tj tb tbb : Z),
     let A := {| TraceID := "A"; payload := pa |} in
     let B := {| TraceID := "B"; payload := pb |} in
     let C := {| TraceID := "C"; payload := pc |} in
     let D := {| TraceID := "D"; payload := pd |} in
     let job1 := Some {| Traces := [A; B]; Metrics := Some 0%nat |} in
     let job2 := Some {| Traces := [C; D]; Metrics := Some 0%nat |} in
     let w0 := newSearchProgress [m] None 3 tj tb tbb in
     let w1 := after (CallAddResponse job1) w0 in
     let w2 := after (CallAddResponse job2) w1 in
     returned (addResponse job1 w0) = true ∧
     Count (resultsCombiner (r w1)) = 2 ∧
     shouldQuit w1 = (Returns false, w1) ∧
     returned (addResponse job2 w1) = true ∧
     Count (resultsCombiner (r w2)) = 4 ∧
     shouldQuit w2 = (Returns true, w2) ∧
     ∃ S w', result w2 = (Returns S, w') ∧
       Traces (response S) ≡ₚ [A; B; C; D]).
Proof.
  split; [|split].
  - intros w He Hc Hs Hn. unfold shouldQuit. f_equal. f_equal.
    apply not_true_is_false. rewrite internalShouldQuit_iff.
    intros [?|[?|[?|?]]]; [done|done|done|lia].
  - intros w m Hm. destruct (result_returns w m Hm) as (S & HS & _ & _).
    exists S, (with_heap (λ h, h ++ [m]) w). split; [done|].
    rewrite result_spec, Hm in HS. injection HS as <-.
    apply length_Metadata.
  - intros.
    assert (wf w2) as [m2 Hm2]%lookup_lt_is_Some_2
      by apply after_wf, after_wf, newSearchProgress_wf.
    split; [vm_compute; reflexivity|]. split; [vm_compute; reflexivity|].
    split; [unfold shouldQuit; f_equal|].
    split; [vm_compute; reflexivity|]. split; [vm_compute; reflexivity|].
    split; [unfold shouldQuit; f_equal|].
    rewrite result_spec. unfold sinkMetrics. rewrite Hm2.
    eexists _, _. split; [reflexivity|]. cbn [response Traces].
    assert (Metadata (resultsCombiner (r w2)) = [C; A; B; D]) as ->
      by (vm_compute; reflexivity).
    apply (Permutation_middle [A; B] [D] C).
Qed.

(** An error alone makes the sink quit, with nothing merged yet. *)
Example setError_quits h (e : errval) tj tb tbb :
  let w := run [CallSetError (Some e)] (newSearchProgress h None 10 tj tb tbb) in
  shouldQuit w = (Returns true, w) ∧ Count (resultsCombiner (r w)) = 0.
Proof. by split. Qed.

(** So does the context, and no error is recorded for it. *)
Example cancellation_quits h (e : errval) tj tb tbb :
  let w := run [CtxDone e] (newSearchProgress h None 10 tj tb tbb) in
  shouldQuit w = (Returns true, w) ∧
  Count (resultsCombiner (r w)) = 0 ∧ err (r w) = None.
Proof. by split. Qed.

(** So does a 500 status, which the snapshot reports with its message. *)
Example status_500_quits (m : SearchMetrics) tj tb tbb :
  let w := run [CallSetStatus 500 "downstream failure"]
               (newSearchProgress [m] None 10 tj tb tbb) in
  shouldQuit w = (Returns true, w) ∧
  ∃ S w', result w = (Returns S, w') ∧
    res_statusCode S = 500 ∧ res_statusMsg S = "downstream failure".
Proof.
  intros w. split; [done|]. rewrite result_spec.
  eexists _, _. split; [reflexivity|]. by split.
Qed.

(** Two responses that share trace "B": three distinct entries, and the
    two records of "B" are merged. *)
Example overlapping_responses_deduplicate (pa pb pb' pc : P) (m : SearchMetrics) :
  let job1 := Some {| Traces := [ {| TraceID := "A"; payload := pa |};
                                  {| TraceID := "B"; payload := pb |} ];
                      Metrics := Some 0%nat |} in
  let job2 := Some {| Traces := [ {| TraceID := "B"; payload := pb' |};
                                  {| TraceID := "C"; payload := pc |} ];
                      Metrics := Some 0%nat |} in
  let w := run [CallAddResponse job1; CallAddResponse job2]
               (newSearchProgress [m] None 10 2 2 0) in
  Count (resultsCombiner (r w)) = 3 ∧
  trs (resultsCombiner (r w)) !! "B" = Some (combineSearchResults pb pb').
Proof. intros. split; vm_compute; reflexivity. Qed.



Section OrderIndependence.

(** What the combiner's contract asks of the merge of two records of
    one trace. *)
Hypothesis combine_comm :
  ∀ a b, combineSearchResults a b = combineSearchResults b a.
Hypothesis combine_assoc :
  ∀ a b c, combineSearchResults a (combineSearchResults b c) =
           combineSearchResults (combineSearchResults a b) c.




End OrderIndependence.

(** ** Further properties of the sink *)

Lemma after_result w :
  after CallResult w =
    match sinkMetrics w with
    | Some m => with_heap (λ h, h ++ [m]) w
    | None => w
    end.
Proof.
  unfold after; cbn [step]. unfold mbind, M_bind. rewrite result_spec.
  by destruct (sinkMetrics w).
Qed.

Lemma after_combiner c w :
  resultsCombiner (r (after c w)) =
    foldl AddMetadata (resultsCombiner (r w)) (tracesOfCall c).
Proof.
  destruct c as [code msg|e|res| | |e]; cbn [tracesOfCall];
    [done|done|apply after_addResponse_combiner|done| |done].
  unfold after; cbn [step]. unfold mbind, M_bind. rewrite result_spec.
  by destruct (sinkMetrics w).
Qed.

Lemma after_status_err c w :
  (statusCode (r (after c w)), statusMsg (r (after c w))) =
    lastStatus [c] (statusCode (r w), statusMsg (r w)) ∧
  err (r (after c w)) = lastError [c] (err (r w)) ∧
  (ctxErr w ≠ None → ctxErr (after c w) ≠ None).
Proof.
  destruct c as [code msg|e|[res|]| | |e]; try done.
  - unfold after; cbn [step lastStatus lastError foldl].
    rewrite addResponse_spec.
    by destruct (sinkMetrics w), (deref (heap w) (Metrics res)).
  - unfold after; cbn [step lastStatus lastError foldl].
    unfold mbind, M_bind. rewrite result_spec. by destruct (sinkMetrics w).
Qed.

(** X1: only [setStatus] writes the status and only [setError] writes
    the error.  After any calls on a fresh sink the status is that of
    the last [setStatus] (200 with an empty message when there was
    none), the error is that of the last [setError] (nil when there was
    none), and the next snapshot reports exactly these; a context that
    is done never shows up as an error in the snapshot. *)
Theorem status_and_error_are_last_written h cerr lim tj tb tbb (cs : list call) :
  let w := run cs (newSearchProgress h cerr lim tj tb tbb) in
  (statusCode (r w), statusMsg (r w)) = lastStatus cs (StatusOK, "") ∧
  err (r w) = lastError cs None ∧
  ∃ S w', result w = (Returns S, w') ∧
    (res_statusCode S, res_statusMsg S) = lastStatus cs (StatusOK, "") ∧
    res_err S = lastError cs None.
Proof.
  intros w.
  assert (∀ cs w0, (statusCode (r (run cs w0)), statusMsg (r (run cs w0))) =
                     lastStatus cs (statusCode (r w0), statusMsg (r w0)) ∧
                   err (r (run cs w0)) = lastError cs (err (r w0))) as Hrun.
  { clear. induction cs as [|c cs IH]; intros w0; [done|].
    rewrite run_cons. destruct (IH (after c w0)) as [-> ->].
    destruct (after_status_err c w0) as (-> & -> & _). done. }
  destruct (Hrun cs (newSearchProgress h cerr lim tj tb tbb)) as [Hs He].
  fold w in Hs, He. split; [exact Hs|]. split; [exact He|].
  assert (wf w) as [m Hm]%lookup_lt_is_Some_2
    by apply run_wf, newSearchProgress_wf.
  rewrite result_spec. unfold sinkMetrics. rewrite Hm.
  eexists _, _. split; [reflexivity|]. by split.
Qed.

Lemma size_AddMetadata c t :
  (size (trs c) ≤ size (trs (AddMetadata c t)))%nat ∧
  dom (trs c) ⊆ dom (trs (AddMetadata c t)) ∧
  TraceID t ∈ dom (trs (AddMetadata c t)).
Proof.
  unfold AddMetadata.
  destruct (trs c !! TraceID t) as [e|] eqn:He; cbn [trs].
  - rewrite map_size_insert_Some by done. rewrite dom_insert_L.
    split; [done|]. split; [apply union_subseteq_r|].
    apply elem_of_union_l. by apply elem_of_singleton.
  - rewrite map_size_insert_None by done. rewrite dom_insert_L.
    split; [lia|]. split; [apply union_subseteq_r|].
    apply elem_of_union_l. by apply elem_of_singleton.
Qed.

Lemma foldl_AddMetadata_grows ts c :
  (size (trs c) ≤ size (trs (foldl AddMetadata c ts)))%nat ∧
  dom (trs c) ⊆ dom (trs (foldl AddMetadata c ts)) ∧
  (∀ t, t ∈ ts → TraceID t ∈ dom (trs (foldl AddMetadata c ts))).
Proof.
  revert c. induction ts as [|t ts IH]; intros c.
  - split; [done|]. split; [done|]. by intros t Ht%elem_of_nil.
  - cbn [foldl]. destruct (IH (AddMetadata c t)) as (Hs & Hd & He).
    destruct (size_AddMetadata c t) as (Hs1 & Hd1 & He1).
    split; [lia|]. split; [by etrans|].
    intros t' [->|Ht']%elem_of_cons; [by apply Hd|by apply He].
Qed.

Lemma run_combiner_grows cs w :
  Count (resultsCombiner (r w)) ≤ Count (resultsCombiner (r (run cs w))) ∧
  dom (trs (resultsCombiner (r w))) ⊆ dom (trs (resultsCombiner (r (run cs w)))).
Proof.
  revert w. induction cs as [|c cs IH]; intros w; [done|].
  rewrite run_cons. destruct (IH (after c w)) as [Hc Hd].
  rewrite after_combiner in Hc, Hd.
  destruct (foldl_AddMetadata_grows (tracesOfCall c) (resultsCombiner (r w)))
    as (Hs1 & Hd1 & _).
  unfold Count in *. split; [lia|by etrans].
Qed.

(** X2: the combiner never loses an entry.  Across any calls the set of
    trace identifiers it holds only grows, every trace of every
    [addResponse] call is in it afterwards (also of a call that
    panicked on a nil [Metrics]), and [limit] never changes; so a sink
    whose count has exceeded the limit answers [shouldQuit] with [true]
    after any further calls. *)
Theorem limit_exceeded_stays_exceeded (w : World) (later : list call) :
  dom (trs (resultsCombiner (r w))) ⊆ dom (trs (resultsCombiner (r (run later w)))) ∧
  Count (resultsCombiner (r w)) ≤ Count (resultsCombiner (r (run later w))) ∧
  (∀ res t, t ∈ tracesOf res →
     TraceID t ∈ dom (trs (resultsCombiner (r (run (CallAddResponse res :: later) w))))) ∧
  limit (r (run later w)) = limit (r w) ∧
  (Count (resultsCombiner (r w)) > limit (r w) →
   shouldQuit (run later w) = (Returns true, run later w)).
Proof.
  destruct (run_combiner_grows later w) as [Hc Hd].
  split; [done|]. split; [done|]. split; [|split].
  - intros res t Ht. rewrite run_cons.
    destruct (run_combiner_grows later (after (CallAddResponse res) w)) as [_ Hd'].
    apply Hd'. rewrite after_combiner.
    by apply foldl_AddMetadata_grows.
  - apply run_limit.
  - intros Hgt. unfold shouldQuit. f_equal. f_equal.
    apply internalShouldQuit_iff. do 3 right. rewrite run_limit. lia.
Qed.

Lemma run_addResponses_quiet rs w :
  err (r (run (CallAddResponse <$> rs) w)) = err (r w) ∧
  statusCode (r (run (CallAddResponse <$> rs) w)) = statusCode (r w) ∧
  ctxErr (run (CallAddResponse <$> rs) w) = ctxErr w.
Proof.
  revert w. induction rs as [|res rs IH]; intros w; [done|].
  rewrite fmap_cons, run_cons.
  destruct (IH (after (CallAddResponse res) w)) as (-> & -> & ->).
  unfold after; cbn [step]. destruct res as [res|]; [|done].
  rewrite addResponse_spec.
  by destruct (sinkMetrics w), (deref (heap w) (Metrics res)).
Qed.

(** X3: a sink just built quits at once exactly when its context is
    already done or its limit is negative.  With a limit of zero and a
    live context, after any [addResponse] calls (whether they returned
    or panicked on a nil [Metrics]) it quits exactly when one of the
    responses carried a trace: not before the first entry is merged, and
    from then on. *)
Theorem fresh_sink_quits_iff h cerr lim tj tb tbb :
  let w := newSearchProgress h cerr lim tj tb tbb in
  (internalShouldQuit w = true ↔ cerr ≠ None ∨ lim < 0) ∧
  (∀ rs : list (option SearchResponse), cerr = None → lim = 0 →
     (internalShouldQuit (run (CallAddResponse <$> rs) w) = true ↔
        ∃ res t, res ∈ rs ∧ t ∈ tracesOf res)).
Proof.
  intros w. split.
  - rewrite internalShouldQuit_iff. unfold stopCondition, w; cbn.
    rewrite Count_New. split.
    + intros [?|[?|[?|?]]]; [done|by left|done|right; lia].
    + intros [?|?]; [by right; left|do 3 right; lia].
  - intros rs -> ->. rewrite internalShouldQuit_iff. unfold stopCondition.
    destruct (run_addResponses_quiet rs w) as (-> & -> & ->).
    rewrite run_limit, run_addResponses_combiner.
    unfold w; cbn [newSearchProgress r err statusCode ctxErr limit resultsCombiner].
    destruct (foldl_AddMetadata_grows (rs ≫= tracesOf) NewMetadataCombiner)
      as (_ & _ & Hin).
    split.
    + intros [?|[?|[Hq|Hc]]]; [done|done|by vm_compute in Hq|].
      destruct (rs ≫= tracesOf) as [|t ts] eqn:Hts.
      { cbn [foldl] in Hc. rewrite Count_New in Hc. lia. }
      assert (t ∈ rs ≫= tracesOf) as Ht by (rewrite Hts; left).
      apply list_elem_of_bind in Ht as (res & Ht & Hres). by exists res, t.
    + intros (res & t & Hres & Ht). do 3 right.
      assert (t ∈ rs ≫= tracesOf) as Hb by (apply list_elem_of_bind; eauto).
      apply Hin in Hb. unfold Count.
      destruct (decide (size (trs (foldl AddMetadata NewMetadataCombiner
                                        (rs ≫= tracesOf))) = 0%nat)) as [Hz|Hz]; [|lia].
      apply map_size_empty_inv in Hz. rewrite Hz in Hb.
      by rewrite dom_empty_L in Hb.
Qed.

Lemma uint64_add_l (a x : Z) : uint64 (uint64 a + x) = uint64 (a + x).
Proof. unfold uint64. by rewrite Zplus_mod_idemp_l. Qed.

Lemma uint32_add_l (a x : Z) : uint32 (uint32 a + x) = uint32 (a + x).
Proof. unfold uint32. by rewrite Zplus_mod_idemp_l. Qed.

(** The sink's metrics sit right after the caller's structs [h], which
    nobody has written to, and hold the sums [a] and [b] so far. *)
Definition summed (h : list SearchMetrics) (w : World) (a b : Z) : Prop :=
  resultsMetrics (r w) = length h ∧
  (∀ l, (l < length h)%nat → heap w !! l = h !! l) ∧
  ∃ m, sinkMetrics w = Some m ∧
       InspectedBytes m = uint64 a ∧ InspectedTraces m = uint32 b.

Lemma after_summed h c w a b :
  callerOwned h c → summed h w a b →
  summed h (after c w) (a + (inspectedOf h c).1) (b + (inspectedOf h c).2).
Proof.
  intros Hown (Hrm & Hh & m & Hm & Ha & Hb).
  assert (∀ w', r w' = r w ∨ resultsMetrics (r w') = resultsMetrics (r w) →
                heap w' = heap w → summed h w' (a + 0) (b + 0)) as Hsame.
  { intros w' Hr Hheap. rewrite !Z.add_0_r. unfold summed, sinkMetrics.
    assert (resultsMetrics (r w') = resultsMetrics (r w)) as ->
      by (by destruct Hr as [-> | ->]).
    rewrite Hheap. split; [done|]. split; [done|]. by exists m. }
  destruct c as [code msg|e|[res|]| | |e]; cbn [inspectedOf fst snd];
    try (by apply Hsame; [right|]).
  - unfold after; cbn [step]. rewrite addResponse_spec, Hm.
    cbn [callerOwned] in Hown.
    destruct (Metrics res) as [l|] eqn:Hl; cbn [deref].
    + rewrite (Hh l Hown).
      destruct (lookup_lt_is_Some_2 h l Hown) as [x Hx]. rewrite Hx.
      cbn [fst snd]. unfold summed, sinkMetrics; cbn [heap r resultsMetrics
        set_finishedRequests mergeTraces set_resultsCombiner].
      pose proof (lookup_lt_Some _ _ _ Hm) as Hlt.
      split; [done|]. split.
      * intros l' Hl'. rewrite list_lookup_insert_ne by lia. by apply Hh.
      * rewrite list_lookup_insert_eq by done. eexists; split; [done|].
        cbn [InspectedBytes InspectedTraces addMetrics].
        by rewrite Ha, Hb, uint64_add_l, uint32_add_l.
    + by apply Hsame; [right|].
  - rewrite after_result, Hm.
    rewrite !Z.add_0_r. unfold summed, sinkMetrics; cbn [heap r with_heap fst snd].
    pose proof (lookup_lt_Some _ _ _ Hm) as Hlt.
    split; [done|]. split.
    + intros l' Hl'. rewrite lookup_app_l by lia. by apply Hh.
    + rewrite lookup_app_l by done. by exists m.
Qed.

Lemma run_summed h cs w a b :
  Forall (callerOwned h) cs → summed h w a b →
  summed h (run cs w) (a + inspectedBytesOf h cs) (b + inspectedTracesOf h cs).
Proof.
  intros Hown. revert w a b.
  induction Hown as [|c cs Hc _ IH]; intros w a b Hw.
  - cbn. by rewrite !Z.add_0_r.
  - rewrite run_cons. cbn [inspectedBytesOf inspectedTracesOf foldr].
    rewrite !Z.add_assoc. by apply IH, after_summed.
Qed.

(** X4: when every response fed to a fresh sink points to a metrics
    struct of the caller, the sink's [InspectedBytes] is the sum of the
    responses' [InspectedBytes] modulo 2^64 and its [InspectedTraces]
    the sum of their [InspectedTraces] modulo 2^32, whatever other calls
    come in between, and the snapshot reports these two numbers. *)
Theorem inspected_counters_are_sums h cerr lim tj tb tbb (cs : list call) :
  Forall (callerOwned h) cs →
  let w := run cs (newSearchProgress h cerr lim tj tb tbb) in
  ∃ S w' snap,
    result w = (Returns S, w') ∧ observe (heap w') S = Some snap ∧
    sinkMetrics w = Some (snap_metrics snap) ∧
    InspectedBytes (snap_metrics snap) = inspectedBytesOf h cs mod 2 ^ 64 ∧
    InspectedTraces (snap_metrics snap) = inspectedTracesOf h cs mod 2 ^ 32.
Proof.
  intros Hown w.
  assert (summed h (newSearchProgress h cerr lim tj tb tbb) 0 0) as H0.
  { split; [done|]. split.
    - intros l Hl. cbn [newSearchProgress heap]. by rewrite lookup_app_l.
    - eexists. split; [apply newSearchProgress_sinkMetrics|]. by split. }
  destruct (run_summed h cs _ 0 0 Hown H0) as (_ & _ & m & Hm & Hb & Ht).
  fold w in Hm. rewrite !Z.add_0_l in *.
  destruct (result_returns w m Hm) as (S & HS & _ & Hobs).
  eexists S, _, _. split; [exact HS|]. split; [exact Hobs|]. by split.
Qed.

(** X5: [result] only reads the sink.  Two snapshots taken one after
    the other leave the sink's fields as they were, read the same in
    every field, and hold pointers to two different metrics structs. *)
Theorem result_reads_only h cerr lim tj tb tbb (cs : list call) :
  let w := run cs (newSearchProgress h cerr lim tj tb tbb) in
  ∃ S1 w1 S2 w2 snap,
    result w = (Returns S1, w1) ∧ result w1 = (Returns S2, w2) ∧
    r w2 = r w ∧ ctxErr w2 = ctxErr w ∧
    sinkMetrics w2 = sinkMetrics w ∧
    Metrics (response S1) ≠ Metrics (response S2) ∧
    observe (heap w2) S1 = Some snap ∧ observe (heap w2) S2 = Some snap.
Proof.
  intros w.
  assert (wf w) as Hwf by apply run_wf, newSearchProgress_wf.
  pose proof Hwf as [m Hm]%lookup_lt_is_Some_2. fold (sinkMetrics w) in Hm.
  destruct (result_returns w m Hm) as (S1 & HS1 & Hp1 & Hobs1).
  set (w1 := with_heap (λ h0, h0 ++ [m]) w) in *.
  assert (sinkMetrics w1 = Some m) as Hm1.
  { unfold sinkMetrics, w1; cbn [with_heap heap r]. by rewrite lookup_app_l. }
  destruct (result_returns w1 m Hm1) as (S2 & HS2 & Hp2 & Hobs2).
  eexists S1, w1, S2, _, _. split; [exact HS1|]. split; [exact HS2|].
  split; [done|]. split; [done|]. split.
  { unfold sinkMetrics, w1; cbn [with_heap heap r]. unfold wf in Hwf.
    rewrite !lookup_app_l; [done|lia|rewrite length_app; lia]. }
  split.
  { rewrite Hp1, Hp2. unfold w1; cbn [with_heap heap]. rewrite length_app; cbn.
    intros [=]; lia. }
  split; [|exact Hobs2].
  cbn [with_heap heap]. unfold observe in Hobs1 |- *. rewrite Hp1 in Hobs1 |- *.
  unfold w1; cbn [with_heap heap r].
  rewrite (lookup_app_l (heap w ++ [m])) by (rewrite length_app; cbn; lia).
  exact Hobs1.
Qed.

End Sharder.

(** ** Instances *)


(** On the combiner alone: when the later record simply replaces the
    earlier one, two records of trace "A" added in the two orders leave
    different entries for it. *)
Example later_record_wins_depends_on_order :
  let later_wins := λ _ new : Z, new in
  let a5 := {| TraceID := "A"; payload := 5 |} in
  let a9 := {| TraceID := "A"; payload := 9 |} in
  Metadata Z (foldl (AddMetadata Z later_wins) (NewMetadataCombiner Z) [a5; a9]) = [a9] ∧
  Metadata Z (foldl (AddMetadata Z later_wins) (NewMetadataCombiner Z) [a9; a5]) = [a5].
Proof. split; vm_compute; reflexivity. Qed.


(** C6 as stated fails at [N = 2^32]: after 2^32 [addResponse] calls on
    a fresh sink, all of which returned, the snapshot has
    [finishedRequests = 2^32] and [CompletedJobs = 0]. *)
Lemma completedJobs_wraps_after_2_32_calls :
  let m := {| InspectedTraces := 0; InspectedBytes := 0; TotalBlocks := 0;
              CompletedJobs := 0; TotalJobs := 0; TotalBlockBytes := 0 |} in
  let res := {| Traces := @nil (TraceSearchMetadata unit); Metrics := Some 0%nat |} in
  let cs := repeat (CallAddResponse unit (Some res)) (Z.to_nat (2 ^ 32)) in
  let w0 := newSearchProgress unit [m] None 20 1 1 1 in
  Z.of_nat (addResponsesReturned unit (λ _ _, tt) cs w0) = 2 ^ 32 ∧
  ∃ S w' snap,
    result unit (run unit (λ _ _, tt) cs w0) = (Returns S, w') ∧
    observe unit (heap unit w') S = Some snap ∧
    snap_finishedRequests unit snap = 2 ^ 32 ∧
    CompletedJobs (snap_metrics unit snap) = 0.
Proof.
  intros m res cs w0.
  assert (Z.of_nat (Z.to_nat (2 ^ 32)) = 2 ^ 32) as Hn by (apply Z2Nat.id; lia).
  assert (addResponsesReturned unit (λ _ _, tt) cs w0 = Z.to_nat (2 ^ 32)) as Hret.
  { apply addResponsesReturned_repeat.
    - unfold w0. rewrite newSearchProgress_sinkMetrics. by eexists.
    - by eexists. }
  split; [by rewrite Hret|].
  pose proof (run_counted unit (λ _ _, tt) cs w0 0
                (newSearchProgress_counted unit _ _ _ _ _ _)) as Hc.
  rewrite Hret, Hn in Hc.
  destruct (counted_snapshot unit _ _ Hc) as (S & w' & snap & HS & Hobs & Hf & Hj).
  exists S, w', snap. split_and!; [done|done|..].
  - rewrite Hf. reflexivity.
  - rewrite Hj. reflexivity.
Qed.

(** X4 at two responses that point to two structs of the caller, with a
    [setStatus] and a [result] in between and a third response whose
    [Metrics] is nil. *)
Lemma inspected_counters_are_sums_witness :
  let m1 := {| InspectedTraces := 7; InspectedBytes := 1024; TotalBlocks := 9;
               CompletedJobs := 1; TotalJobs := 9; TotalBlockBytes := 0 |} in
  let m2 := {| InspectedTraces := 3; InspectedBytes := 2 ^ 64 - 24; TotalBlocks := 0;
               CompletedJobs := 0; TotalJobs := 0; TotalBlockBytes := 0 |} in
  let res (l : option nat) :=
    Some {| Traces := @nil (TraceSearchMetadata unit); Metrics := l |} in
  let cs := [CallAddResponse unit (res (Some 0%nat)); CallSetStatus unit 200 "ok";
             CallResult unit; CallAddResponse unit (res None);
             CallAddResponse unit (res (Some 1%nat))] in
  let w := run unit (λ _ _, tt) cs (newSearchProgress unit [m1; m2] None 5 2 2 0) in
  ∃ S w' snap,
    result unit w = (Returns S, w') ∧ observe unit (heap unit w') S = Some snap ∧
    sinkMetrics unit w = Some (snap_metrics unit snap) ∧
    InspectedBytes (snap_metrics unit snap) = 1000 ∧
    InspectedTraces (snap_metrics unit snap) = 10.
Proof.
  intros m1 m2 res cs w.
  apply (inspected_counters_are_sums unit (λ _ _, tt) [m1; m2] None 5 2 2 0 cs).
  repeat constructor.
Defined.

(** * Properties of the versioned write *)

Section VersionedWrite.

Import azure.

Variable d : Deps.
Variable rw : Azure.

Lemma errors_Is_nil target : errors_Is None target = false.
Proof. reflexivity. Qed.

(** C8: [WriteVersioned] reads the object's current version first.  When
    the caller's token does not match it — the object exists under
    another version, or there is no object and the token is not
    [VersionNew] — the answer is [ErrVersionDoesNotMatch] and the
    container is what it was: nothing was uploaded.  When the read fails
    for another reason, that error is the answer, again with nothing
    uploaded.  Only when the token matches does [Write] run, followed by
    a read of the new version. *)
Theorem WriteVersioned_checks_the_token (c : Container d) (name : string)
    (keypath : KeyPath) (data : list Byte.byte) (size : Z) (version : Version) :
  (tokenMismatches d rw c name keypath version →
     WriteVersioned d rw c name keypath data size version =
       (c, ("", Some ErrVersionDoesNotMatch))) ∧
  (¬ tokenMatches d rw c name keypath version →
     (WriteVersioned d rw c name keypath data size version).1 = c ∧
     (WriteVersioned d rw c name keypath data size version).2.1 = "" ∧
     (WriteVersioned d rw c name keypath data size version).2.2 ≠ None) ∧
  (tokenMatches d rw c name keypath version →
     WriteVersioned d rw c name keypath data size version =
       let '(c', err) := Write d rw c name keypath data size in
       if non_nil err then (c', ("", err))
       else (c', ((ReadVersioned d rw c' name keypath).1.2,
                  (ReadVersioned d rw c' name keypath).2))).
Proof.
  unfold tokenMismatches, tokenMatches, WriteVersioned.
  destruct (ReadVersioned d rw c name keypath) as [[b cur] err].
  destruct err as [e|]; cbn [non_nil andb negb].
  - destruct (errors_Is (Some e) ErrDoesNotExist) eqn:HIs; cbn [non_nil andb negb].
    + destruct (String.eqb_spec version VersionNew) as [Hv|Hv]; cbn [negb].
      * split; [intros [[[=] _]|[_ ?]]; done|]. split; [intros []; by right|].
        intros _. destruct (Write d rw c name keypath data size) as [c' werr].
        destruct (non_nil werr); [done|].
        by destruct (ReadVersioned d rw c' name keypath) as [[? ?] ?].
      * split; [done|]. split; [done|].
        intros [[[=] _]|[_ ?]]; done.
    + split; [intros [[[=] _]|[[=] _]]|].
      split; [done|]. intros [[[=] _]|[[=] _]].
  - rewrite errors_Is_nil; cbn [andb negb].
    destruct (String.eqb_spec version cur) as [Hv|Hv]; cbn [negb].
    + split; [intros [[_ ?]|[[=] _]]; done|]. split; [intros []; by left|].
      intros _. destruct (Write d rw c name keypath data size) as [c' werr].
      destruct (non_nil werr); [done|].
      by destruct (ReadVersioned d rw c' name keypath) as [[? ?] ?].
    + split; [done|]. split; [done|].
      intros [[_ ?]|[[=] _]]; done.
Qed.

(** [DeleteVersioned] refuses a stale token for an object that exists,
    and deletes nothing then. *)
Lemma DeleteVersioned_checks_the_token (c : Container d) (name : string)
    (keypath : KeyPath) (version : Version) :
  (ReadVersioned d rw c name keypath).2 = None →
  (ReadVersioned d rw c name keypath).1.2 ≠ version →
  DeleteVersioned d rw c name keypath version = (c, Some ErrVersionDoesNotMatch).
Proof.
  unfold DeleteVersioned.
  destruct (ReadVersioned d rw c name keypath) as [[b cur] err]; cbn.
  intros -> Hv. cbn. by destruct (String.eqb_spec cur version).
Qed.

End VersionedWrite.

(** * Further properties of the Azure backend *)

Section AzureBackend.

Import azure.

Variable d : Deps.
Variable rw : Azure.

Lemma readError_cases (err : error) :
  (err = None ∧ readError err = None) ∨
  (HasCode err BlobNotFound = true ∧ readError err = Some ErrDoesNotExist) ∨
  (∃ e, err = Some e ∧
        readError err = Some (Errorf "reading Azure blob container: %w" e)).
Proof.
  unfold readError. destruct (HasCode err BlobNotFound) eqn:Hc; [by right; left|].
  destruct err as [e|]; [|by left]. right; right. by exists e.
Qed.

Lemma readError_nil (err : error) : readError err = None ↔ err = None.
Proof.
  destruct (readError_cases err) as [[-> ->]|[[Hc ->]|(e & -> & ->)]]; [done|..].
  - split; [done|]. intros ->. done.
  - done.
Qed.

Lemma readError_not_mismatch (err : error) :
  readError err ≠ Some ErrVersionDoesNotMatch.
Proof.
  by destruct (readError_cases err) as [[-> ->]|[[Hc ->]|(e & -> & ->)]].
Qed.

Lemma ReadVersioned_cases (c : Container d) name keypath :
  (∃ b v, ReadVersioned d rw c name keypath = (Some b, v, None)) ∨
  (∃ err, err ≠ None ∧
          ReadVersioned d rw c name keypath = (None, "", readError err)).
Proof.
  unfold ReadVersioned.
  destruct (readAll d c _) as [[b etag] [e|]]; cbn [non_nil].
  - right. by exists (Some e).
  - left. by exists b, etag.
Qed.

Lemma Write_not_mismatch (c : Container d) name keypath data size :
  (Write d rw c name keypath data size).2 ≠ Some ErrVersionDoesNotMatch.
Proof.
  unfold Write, writer. destruct (UploadStream d c _ data) as [c' [e|]]; done.
Qed.

Lemma Delete_not_mismatch (c : Container d) name keypath :
  (Delete d c name keypath).2 ≠ Some ErrVersionDoesNotMatch.
Proof.
  unfold Delete. destruct (getBlobClient d _) as [e|]; [done|].
  destruct (DeleteBlob d c _) as [c' [e|]]; cbn [non_nil snd]; [|done].
  apply readError_not_mismatch.
Qed.

(** X6: [ErrVersionDoesNotMatch] means a mismatch and nothing else.
    [WriteVersioned] answers it exactly when the token does not match
    what [ReadVersioned] found, and [DeleteVersioned] exactly when the
    object exists under another version; no failure of the SDK, of
    [Write] or of [Delete] comes out as this error.  [DeleteVersioned]
    compares nothing when the object does not exist. *)
Theorem version_mismatch_error_is_distinct (c : Container d) (name : string)
    (keypath : KeyPath) (data : list Byte.byte) (size : Z) (version : Version) :
  ((WriteVersioned d rw c name keypath data size version).2.2 =
     Some ErrVersionDoesNotMatch ↔
   tokenMismatches d rw c name keypath version) ∧
  ((DeleteVersioned d rw c name keypath version).2 =
     Some ErrVersionDoesNotMatch ↔
   (ReadVersioned d rw c name keypath).2 = None ∧
   (ReadVersioned d rw c name keypath).1.2 ≠ version) ∧
  (errors_Is (ReadVersioned d rw c name keypath).2 ErrDoesNotExist = true →
   DeleteVersioned d rw c name keypath version = Delete d c name keypath).
Proof.
  unfold tokenMismatches, WriteVersioned, DeleteVersioned.
  pose proof (Write_not_mismatch c name keypath data size) as HW.
  pose proof (Delete_not_mismatch c name keypath) as HD.
  destruct (ReadVersioned_cases c name keypath)
    as [(b & cur & ->)|(err0 & Hne & ->)]; cbn [fst snd non_nil andb negb].
  - rewrite errors_Is_nil; cbn [andb negb]. split; [|split; [|done]].
    + destruct (String.eqb_spec version cur) as [Hv|Hv]; cbn [negb].
      * destruct (Write d rw c name keypath data size) as [c' werr].
        cbn [snd] in HW. split; [|by intros [[_ ?]|[[=] _]]].
        destruct werr as [e|]; cbn [non_nil snd]; [done|].
        destruct (ReadVersioned_cases c' name keypath)
          as [(b' & v' & ->)|(err1 & _ & ->)]; cbn [snd]; [done|].
        intros H. by apply readError_not_mismatch in H.
      * split; [by left|done].
    + destruct (String.eqb_spec cur version) as [Hv|Hv]; cbn [negb snd].
      * split; [done|]. by intros [_ ?].
      * done.
  - pose proof (readError_not_mismatch err0) as Hnm.
    destruct (readError err0) as [e0|] eqn:Hr;
      [|by apply (proj1 (readError_nil _)) in Hr].
    cbn [non_nil].
    destruct (errors_Is (Some e0) ErrDoesNotExist) eqn:HIs; cbn [andb negb snd].
    + split; [|split; [|done]].
      * destruct (String.eqb_spec version VersionNew) as [Hv|Hv]; cbn [negb snd].
        -- destruct (Write d rw c name keypath data size) as [c' werr].
           cbn [snd] in HW. split; [|by intros [[[=] _]|[_ ?]]].
           destruct werr as [e|]; cbn [non_nil snd]; [done|].
           destruct (ReadVersioned_cases c' name keypath)
             as [(b' & v' & ->)|(err1 & _ & ->)]; cbn [snd]; [done|].
           intros H. by apply readError_not_mismatch in H.
        -- split; [by right|done].
      * split; [done|]. by intros [[=] _].
    + split; [|split; [|done]].
      * split; [done|]. by intros [[[=] _]|[[=] _]].
      * split; [done|]. by intros [[=] _].
Qed.

(** X7: the version a successful [WriteVersioned] returns is the token
    of the next versioned call.  Right after it, the token check of
    [WriteVersioned] passes with that version, and with any other
    version both [WriteVersioned] and [DeleteVersioned] answer
    [ErrVersionDoesNotMatch] and leave the container as it is. *)
Theorem returned_version_is_the_next_token (c c' : Container d) (name : string)
    (keypath : KeyPath) (data : list Byte.byte) (size : Z) (version v : Version) :
  WriteVersioned d rw c name keypath data size version = (c', (v, None)) →
  tokenMatches d rw c' name keypath v ∧
  ∀ v' data' size', v' ≠ v →
    WriteVersioned d rw c' name keypath data' size' v' =
      (c', ("", Some ErrVersionDoesNotMatch)) ∧
    DeleteVersioned d rw c' name keypath v' = (c', Some ErrVersionDoesNotMatch).
Proof.
  intros HW.
  assert (∃ b, ReadVersioned d rw c' name keypath = (b, v, None)) as [b Hread].
  { unfold WriteVersioned in HW.
    destruct (ReadVersioned d rw c name keypath) as [[b0 cur] [e|]];
      cbn [non_nil andb] in HW.
    all: repeat match type of HW with
                | (if ?g then _ else _) = _ => destruct g; [by inversion HW|]
                end.
    all: destruct (Write d rw c name keypath data size) as [c1 [e1|]];
      cbn [non_nil] in HW; [by inversion HW|].
    all: destruct (ReadVersioned d rw c1 name keypath) as [[b1 v1] e2] eqn:Hr1.
    all: inversion HW; subst; by exists b1. }
  split.
  - unfold tokenMatches. rewrite Hread. by left.
  - intros v' data' size' Hv. unfold WriteVersioned, DeleteVersioned.
    rewrite Hread, errors_Is_nil; cbn [non_nil andb negb].
    destruct (String.eqb_spec v' v) as [?|_]; [done|].
    destruct (String.eqb_spec v v') as [?|_]; [done|]. done.
Qed.

(** X8: what is written can be read back.  When an upload that the
    SDK reports as successful leaves the uploaded bytes readable under
    the same name, a successful [WriteVersioned] is followed by a
    [ReadVersioned] that returns the bytes written together with the
    version [WriteVersioned] returned, and by a [Read] that returns the
    same bytes and their number. *)
Theorem WriteVersioned_then_read (c c' : Container d) (name : string)
    (keypath : KeyPath) (data : list Byte.byte) (size : Z) (version v : Version) :
  (∀ c0 n src c1,
     UploadStream d c0 n src = (c1, None) →
     ∃ etag, GetProperties d c1 n =
               Ok {| ContentLength := Some (Z.of_nat (length src)); ETag := etag |} ∧
             DownloadBuffer d c1 n 0 (Z.of_nat (length src)) = Ok src) →
  WriteVersioned d rw c name keypath data size version = (c', (v, None)) →
  ReadVersioned d rw c' name keypath = (Some data, v, None) ∧
  Read d rw c' name keypath =
    (Some data, int (Z.of_nat (length data)), None).
Proof.
  intros Hsdk HW. unfold WriteVersioned in HW.
  assert (∃ c1, Write d rw c name keypath data size = (c1, None) ∧
                (c1, ((ReadVersioned d rw c1 name keypath).1.2,
                      (ReadVersioned d rw c1 name keypath).2)) = (c', (v, None)))
    as (c1 & HWr & HW').
  { destruct (ReadVersioned d rw c name keypath) as [[b0 cur] [e|]];
      cbn [non_nil andb] in HW.
    all: repeat match type of HW with
                | (if ?g then _ else _) = _ => destruct g; [by inversion HW|]
                end.
    all: destruct (Write d rw c name keypath data size) as [c1 [e1|]];
      cbn [non_nil] in HW; [by inversion HW|].
    all: exists c1; split; [done|].
    all: by destruct (ReadVersioned d rw c1 name keypath) as [[b1 v1] e2]. }
  clear HW.
  unfold Write, writer in HWr.
  destruct (UploadStream d c _ data) as [c2 [e|]] eqn:Hup; [by inversion HWr|].
  injection HWr as <-.
  destruct (Hsdk _ _ _ _ Hup) as (etag & Hprops & Hdown).
  unfold ReadVersioned, readAll in HW'.
  rewrite Hprops in HW'; cbn [ContentLength ETag] in HW'.
  rewrite Hdown in HW'. cbn [non_nil fst snd] in HW'.
  injection HW' as <- <-.
  unfold ReadVersioned, Read, readAll.
  rewrite Hprops; cbn [ContentLength ETag]. by rewrite Hdown.
Qed.

(** X9: [Delete] names its object without the configured prefix, unlike
    [ReadVersioned] and [Write].  So when the prefix changes the name of
    the object, and deleting one blob leaves the others readable as
    before, [DeleteVersioned] never removes the object whose version it
    compared: whatever it answers, [ReadVersioned] returns afterwards
    what it returned before. *)
Theorem DeleteVersioned_misses_prefixed_object (c : Container d) (name : string)
    (keypath : KeyPath) (version : Version) :
  ObjectFileName d (KeyPathWithPrefix d keypath (Prefix rw)) name ≠
    ObjectFileName d keypath name →
  (∀ c0 n c1 e, DeleteBlob d c0 n = (c1, e) →
     ∀ n', n' ≠ n → GetProperties d c1 n' = GetProperties d c0 n' ∧
                    ∀ off cnt, DownloadBuffer d c1 n' off cnt =
                               DownloadBuffer d c0 n' off cnt) →
  ReadVersioned d rw (DeleteVersioned d rw c name keypath version).1 name keypath =
    ReadVersioned d rw c name keypath.
Proof.
  intros Hname Hframe. unfold DeleteVersioned.
  destruct (ReadVersioned d rw c name keypath) as [[b cur] err] eqn:Hread.
  repeat match goal with
         | |- context [if ?g then _ else _] => destruct g; [done|]
         end.
  unfold Delete. destruct (getBlobClient d _) as [e|]; [done|].
  destruct (DeleteBlob d c _) as [c1 derr] eqn:Hdel.
  assert (ReadVersioned d rw c1 name keypath = ReadVersioned d rw c name keypath)
    as Hsame.
  { destruct (Hframe _ _ _ _ Hdel _ Hname) as [Hp Hd].
    unfold ReadVersioned, readAll. rewrite Hp.
    destruct (GetProperties d c _) as [props|e]; [|done].
    destruct (ContentLength props) as [n|]; [|done]. by rewrite Hd. }
  rewrite <- Hread, <- Hsame. by destruct (non_nil derr).
Qed.

Lemma int_bounds (z : Z) : - 2 ^ 63 ≤ int z < 2 ^ 63.
Proof.
  unfold int. pose proof (Z.mod_pos_bound (z + 2 ^ 63) (2 ^ 64) ltac:(lia)). lia.
Qed.

(** X10: [ReadRange] with a buffer of length zero never succeeds: when
    every SDK call goes through, the final read of the empty buffer
    answers [io.EOF], which comes back wrapped by [readError]. *)
Theorem ReadRange_empty_buffer_fails (c : Container d) (name : string)
    (keypath : KeyPath) (offset : Z) :
  (ReadRange d rw c name keypath offset []).2 ≠ None ∧
  (∀ props n filled,
     let object := ObjectFileName d (KeyPathWithPrefix d keypath (Prefix rw)) name in
     GetProperties d c object = Ok props → ContentLength props = Some n →
     DownloadBuffer d c object (int offset) (int (n - int offset)) = Ok filled →
     ReadRange d rw c name keypath offset [] =
       (filled, Some (Errorf "reading Azure blob container: %w" EOF))).
Proof.
  split.
  - unfold ReadRange, readRange.
    destruct (GetProperties d c _) as [props|e]; cbn [non_nil snd];
      [|by rewrite readError_nil].
    destruct (ContentLength props) as [n|]; cbn [non_nil snd];
      [|by rewrite readError_nil].
    destruct (DownloadBuffer d c _ _ _) as [filled|e];
      cbn [length Nat.eqb non_nil snd]; by rewrite readError_nil.
  - intros props n filled object Hp Hn Hd. unfold ReadRange, readRange.
    fold object. rewrite Hp, Hn. unfold rangeCount; cbn [length].
    change (0 <? Z.of_nat 0) with false. cbn [andb]. by rewrite Hd.
Qed.

(** X11: the range [readRange] asks for.  For an offset inside the blob
    and a buffer that is not empty, the count requested from the SDK is
    the smaller of the buffer's length and what is left of the blob
    after the offset, so never more than the blob holds; for an offset
    past the end of the blob the count requested is negative. *)
Theorem readRange_requests_what_is_left (c : Container d) (name : string)
    (offset contentLength : Z) (destBuffer : list Byte.byte) (props : Props) :
  GetProperties d c name = Ok props →
  ContentLength props = Some contentLength →
  destBuffer ≠ [] →
  0 ≤ offset < 2 ^ 63 → 0 ≤ contentLength < 2 ^ 63 →
  (offset ≤ contentLength →
   readRange d c name offset destBuffer =
     match DownloadBuffer d c name offset
             (Z.min (Z.of_nat (length destBuffer)) (contentLength - offset)) with
     | Ok filled => (filled, None)
     | Err e => (destBuffer, Some e)
     end) ∧
  (contentLength < offset →
   rangeCount (Z.of_nat (length destBuffer)) contentLength offset < 0 ∧
   readRange d c name offset destBuffer =
     match DownloadBuffer d c name offset (contentLength - offset) with
     | Ok filled => (filled, None)
     | Err e => (destBuffer, Some e)
     end).
Proof.
  intros Hp Hn Hbuf Hoff Hcl.
  assert (int (contentLength - offset) = contentLength - offset) as Hint.
  { unfold int. rewrite Z.mod_small by lia. lia. }
  assert (0 < Z.of_nat (length destBuffer)) as Hlen.
  { destruct destBuffer; [done|]. cbn [length]. lia. }
  assert (Nat.eqb (length destBuffer) 0 = false) as Hnz.
  { apply Nat.eqb_neq. lia. }
  unfold readRange, rangeCount. rewrite Hp, Hn, Hint, Hnz.
  destruct (Z.ltb_spec 0 (Z.of_nat (length destBuffer))) as [_|?]; [|lia].
  cbn [andb]. split; intros Hcmp.
  - destruct (Z.leb_spec (Z.of_nat (length destBuffer)) (contentLength - offset)).
    + by rewrite Z.min_l by lia.
    + by rewrite Z.min_r by lia.
  - destruct (Z.leb_spec (Z.of_nat (length destBuffer)) (contentLength - offset));
      [lia|]. split; [lia|done].
Qed.

End AzureBackend.

(** ** The in-memory container as an instance *)

Lemma memDeps_upload_readable (c0 : azure.memContainer) (n : string)
    (src : list Byte.byte) (c1 : azure.memContainer) :
  azure.UploadStream azure.memDeps c0 n src = (c1, None) →
  ∃ etag,
    azure.GetProperties azure.memDeps c1 n =
      azure.Ok {| azure.ContentLength := Some (Z.of_nat (length src));
                  azure.ETag := etag |} ∧
    azure.DownloadBuffer azure.memDeps c1 n 0 (Z.of_nat (length src)) = azure.Ok src.
Proof.
  cbn. intros [= <-]. cbn. rewrite lookup_insert_eq. by eexists.
Qed.

Lemma memDeps_delete_frame (c0 : azure.memContainer) (n : string)
    (c1 : azure.memContainer) (e : error) :
  azure.DeleteBlob azure.memDeps c0 n = (c1, e) →
  ∀ n', n' ≠ n →
    azure.GetProperties azure.memDeps c1 n' = azure.GetProperties azure.memDeps c0 n' ∧
    ∀ off cnt, azure.DownloadBuffer azure.memDeps c1 n' off cnt =
               azure.DownloadBuffer azure.memDeps c0 n' off cnt.
Proof.
  cbn. destruct (azure.blobs c0 !! n) as [b|] eqn:Hb; intros [= <- <-] n' Hn; [|done].
  cbn. by rewrite lookup_delete_ne.
Qed.

(** X7 at a first write into an empty container. *)
Lemma returned_version_is_the_next_token_witness :
  let rw := {| azure.Prefix := "single-tenant" |} in
  let c0 := {| azure.blobs := ∅; azure.uploads := 0 |} in
  let c1 := (azure.WriteVersioned azure.memDeps rw c0 "index" ["blocks"]
               [Byte.x01] 1 azure.VersionNew).1 in
  azure.tokenMatches azure.memDeps rw c1 "index" ["blocks"] "1" ∧
  ∀ v' data' size', v' ≠ "1" →
    azure.WriteVersioned azure.memDeps rw c1 "index" ["blocks"] data' size' v' =
      (c1, ("", Some ErrVersionDoesNotMatch)) ∧
    azure.DeleteVersioned azure.memDeps rw c1 "index" ["blocks"] v' =
      (c1, Some ErrVersionDoesNotMatch).
Proof.
  intros rw c0 c1.
  apply (returned_version_is_the_next_token azure.memDeps rw c0 c1 "index"
           ["blocks"] [Byte.x01] 1 azure.VersionNew "1").
  vm_compute. reflexivity.
Defined.

(** X8 at a first write of two bytes. *)
Lemma WriteVersioned_then_read_witness :
  let rw := {| azure.Prefix := "single-tenant" |} in
  let c0 := {| azure.blobs := ∅; azure.uploads := 0 |} in
  let data := [Byte.x01; Byte.x02] in
  let c1 := (azure.WriteVersioned azure.memDeps rw c0 "index" ["blocks"]
               data 2 azure.VersionNew).1 in
  azure.ReadVersioned azure.memDeps rw c1 "index" ["blocks"] = (Some data, "1", None) ∧
  azure.Read azure.memDeps rw c1 "index" ["blocks"] =
    (Some data, int (Z.of_nat (length data)), None).
Proof.
  intros rw c0 data c1.
  apply (WriteVersioned_then_read azure.memDeps rw c0 c1 "index" ["blocks"]
           data 2 azure.VersionNew "1" memDeps_upload_readable).
  vm_compute. reflexivity.
Defined.

(** X9 at an object written under the prefix "single-tenant" and then
    deleted with its current version: it is still there. *)
Lemma DeleteVersioned_misses_prefixed_object_witness :
  let rw := {| azure.Prefix := "single-tenant" |} in
  let c0 := {| azure.blobs := ∅; azure.uploads := 0 |} in
  let c1 := (azure.WriteVersioned azure.memDeps rw c0 "index" ["blocks"]
               [Byte.x01] 1 azure.VersionNew).1 in
  azure.ReadVersioned azure.memDeps rw
    (azure.DeleteVersioned azure.memDeps rw c1 "index" ["blocks"] "1").1
    "index" ["blocks"] =
  azure.ReadVersioned azure.memDeps rw c1 "index" ["blocks"].
Proof.
  intros rw c0 c1.
  apply (DeleteVersioned_misses_prefixed_object azure.memDeps rw c1 "index"
           ["blocks"] "1").
  - vm_compute. discriminate.
  - apply memDeps_delete_frame.
Defined.

(** X11 at a blob of three bytes read from offset 1 into a buffer of
    five bytes: two bytes are asked for. *)
Lemma readRange_requests_what_is_left_witness :
  let c := {| azure.blobs := {[ "obj" := ([Byte.x01; Byte.x02; Byte.x03], "1") ]};
              azure.uploads := 1 |} in
  let buf := replicate 5 Byte.x00 in
  (1 ≤ 3 →
   azure.readRange azure.memDeps c "obj" 1 buf =
     match azure.DownloadBuffer azure.memDeps c "obj" 1
             (Z.min (Z.of_nat (length buf)) (3 - 1)) with
     | azure.Ok filled => (filled, None)
     | azure.Err e => (buf, Some e)
     end) ∧
  (3 < 1 →
   azure.rangeCount (Z.of_nat (length buf)) 3 1 < 0 ∧
   azure.readRange azure.memDeps c "obj" 1 buf =
     match azure.DownloadBuffer azure.memDeps c "obj" 1 (3 - 1) with
     | azure.Ok filled => (filled, None)
     | azure.Err e => (buf, Some e)
     end).
Proof.
  intros c buf.
  apply (readRange_requests_what_is_left azure.memDeps c "obj" 1 3 buf
           {| azure.ContentLength := Some 3; azure.ETag := Some "1" |}).
  - reflexivity.
  - reflexivity.
  - discriminate.
  - lia.
  - lia.
Defined.

(** The in-memory container: a write with a stale token is refused and
    changes nothing; a first write with [VersionNew] goes through, and so
    does a write with the current version. *)
Example WriteVersioned_in_memory :
  let rw := {| azure.Prefix := "single-tenant" |} in
  let c0 := {| azure.blobs := ∅; azure.uploads := 0 |} in
  let data := [Byte.x01; Byte.x02] in
  let r1 := azure.WriteVersioned azure.memDeps rw c0 "index" ["blocks"] data 2 "7" in
  let r2 := azure.WriteVersioned azure.memDeps rw c0 "index" ["blocks"] data 2
              azure.VersionNew in
  let r3 := azure.WriteVersioned azure.memDeps rw r2.1 "index" ["blocks"] [] 0
              azure.VersionNew in
  let r4 := azure.WriteVersioned azure.memDeps rw r2.1 "index" ["blocks"] [] 0 "1" in
  r1 = (c0, ("", Some ErrVersionDoesNotMatch)) ∧
  r2.2 = ("1", None) ∧
  azure.blobs r2.1 !! "single-tenant/blocks/index" = Some (data, "1") ∧
  r3 = (r2.1, ("", Some ErrVersionDoesNotMatch)) ∧
  r4.2 = ("2", None) ∧
  azure.blobs r4.1 !! "single-tenant/blocks/index" = Some ([], "2").
Proof. vm_compute. by repeat split. Qed.

(** * Package azure: appending blocks *)

From Stdlib Require Import Ascii.

Module azure_append.

Import azure.

(** ** Block ids *)

(** The alphabet of [base64.StdEncoding]. *)
Definition encodeStd : string :=
  "ABCDEFGHIJKLMNOPQRSTUVWXYZabcdefghijklmnopqrstuvwxyz0123456789+/".

(** The character of a sextet. *)
Definition enc (sextet : Z) : Ascii.ascii :=
  match String.get (Z.to_nat sextet) encodeStd with
  | Some c => c
  | None => "="%char
  end.

(** [base64.StdEncoding.Encode]: three bytes give four characters; what
    is left over is padded with [=]. *)
Fixpoint Encode (src : list Z) : list Ascii.ascii :=
  match src with
  | b0 :: b1 :: b2 :: rest =>
      let val := b0 * 2 ^ 16 + b1 * 2 ^ 8 + b2 in
      enc (val / 2 ^ 18 mod 64) :: enc (val / 2 ^ 12 mod 64) ::
      enc (val / 2 ^ 6 mod 64) :: enc (val mod 64) :: Encode rest
  | [b0; b1] =>
      let val := b0 * 2 ^ 16 + b1 * 2 ^ 8 in
      [enc (val / 2 ^ 18 mod 64); enc (val / 2 ^ 12 mod 64);
       enc (val / 2 ^ 6 mod 64); "="%char]
  | [b0] =>
      let val := b0 * 2 ^ 16 in
      [enc (val / 2 ^ 18 mod 64); enc (val / 2 ^ 12 mod 64); "="%char; "="%char]
  | [] => []
  end.

Definition EncodeToString (src : list Z) : string :=
  String.string_of_list_ascii (Encode src).

(** [binary.LittleEndian.PutUint32] on the first four bytes of [b]. *)
Definition PutUint32 (b : list Z) (v : Z) : list Z :=
  [v mod 256; v / 2 ^ 8 mod 256; v / 2 ^ 16 mod 256; v / 2 ^ 24 mod 256]
    ++ drop 4 b.

(** The closure [blockIDIntToBase64] of [append]: a zeroed array of 64
    bytes, the number in its first four. *)
Definition blockIDIntToBase64 (blockID : Z) : string :=
  let binaryBlockID := replicate 64 0 in
  EncodeToString (PutUint32 binaryBlockID (uint32 blockID)).

(** ** The calls *)

(** The block operations of the SDK's block blob client on a container:
    the names of the committed blocks (pointers, which may be nil),
    staging a block under an id, and committing a list of ids. *)
Record BlockDeps (C : Type) : Type := {
  GetBlockList : C → string → sdk (list (option string));
  StageBlock : C → string → string → list Byte.byte → C * error;
  CommitBlockList : C → string → list string → C * error
}.
Arguments GetBlockList {C} _ _ _.
Arguments StageBlock {C} _ _ _ _ _.
Arguments CommitBlockList {C} _ _ _ _.

(** [backend.AppendTracker] is an empty interface: nil, an
    [appendTracker], or a value of another type. *)
Inductive AppendTracker : Type :=
  | NilTracker
  | appendTracker (Name : string)
  | OtherTracker.

Section Calls.

Variable d : Deps.
Variable bd : BlockDeps (Container d).
Variable rw : Azure.

(** The loop of [append] that copies the names of the committed blocks;
    a nil name is a nil dereference. *)
Fixpoint blockNames (committed : list (option string)) : option (list string) :=
  match committed with
  | [] => Some []
  | Some name :: rest =>
      match blockNames rest with
      | Some names => Some (name :: names)
      | None => None
      end
  | None :: _ => None
  end.

Definition append (c : Container d) (src : list Byte.byte) (name : string)
  : outcome error * Container d :=
  match GetBlockList bd c name with
  | Err e => (Returns (Some e), c)
  | Ok CommittedBlocks =>
      let id := blockIDIntToBase64 (int (Z.of_nat (length CommittedBlocks) + 1)) in
      let '(c1, err) := StageBlock bd c name id src in
      if non_nil err then (Returns err, c1)
      else
        match blockNames CommittedBlocks with
        | None => (Panics, c1)
        | Some names =>
            let base64BlockIDs := names ++ [id] in
            let '(c2, err) := CommitBlockList bd c1 name base64BlockIDs in
            (Returns err, c2)
        end
  end.

Definition writeAll (c : Container d) (name : string) (b : list Byte.byte)
  : Container d * error :=
  writer d c b name.

(** [Append]: the tracker to go on with and the error.  A tracker of
    another type fails the type assertion. *)
Definition Append (c : Container d) (name : string) (keypath : KeyPath)
    (tracker : AppendTracker) (buffer : list Byte.byte)
  : outcome (AppendTracker * error) * Container d :=
  let keypath := KeyPathWithPrefix d keypath (Prefix rw) in
  match tracker with
  | NilTracker =>
      let a := appendTracker (ObjectFileName d keypath name) in
      let '(c', err) := writeAll c (ObjectFileName d keypath name) buffer in
      if non_nil err then (Returns (NilTracker, err), c')
      else (Returns (a, None), c')
  | appendTracker Name =>
      match append c buffer Name with
      | (Returns err, c') =>
          if non_nil err then (Returns (NilTracker, err), c')
          else (Returns (appendTracker Name, None), c')
      | (Panics, c') => (Panics, c')
      end
  | OtherTracker => (Panics, c)
  end.

(** A caller that appends one buffer after the other, handing each call
    the tracker that the call before returned, and stops at the first
    error. *)
Fixpoint Appends (c : Container d) (tracker : AppendTracker)
    (calls : list (string * KeyPath * list Byte.byte))
  : outcome (AppendTracker * error) * Container d :=
  match calls with
  | [] => (Returns (tracker, None), c)
  | (name, keypath, buffer) :: rest =>
      match Append c name keypath tracker buffer with
      | (Returns (a, None), c') => Appends c' a rest
      | r => r
      end
  end.

(** The ids of the blocks number [n + 1] to [n + k]. *)
Definition blockIDs (n k : nat) : list string :=
  (λ i, blockIDIntToBase64 (Z.of_nat (n + i))) <$> seq 1 k.

End Calls.

(** An in-memory container of block lists: a staged block is kept aside,
    an upload leaves the blob without blocks. *)
Definition memBlockDeps : Deps :=
  {| KeyPathWithPrefix := KeyPathWithPrefix memDeps;
     ObjectFileName := ObjectFileName memDeps;
     Container := gmap string (list string);
     GetProperties := λ c name, Err (ResponseError BlobNotFound);
     DownloadBuffer := λ c name offset count, Err (ResponseError BlobNotFound);
     UploadStream := λ c name src, (<[name := []]> c, None);
     getBlobClient := λ name, None;
     DeleteBlob := λ c name, (delete name c, None) |}.

Definition memBlocks : BlockDeps (Container memBlockDeps) :=
  {| GetBlockList := λ c name,
       match c !! name with
       | Some ids => Ok (Some <$> ids)
       | None => Err (ResponseError BlobNotFound)
       end;
     StageBlock := λ c name id src,
       match c !! name with
       | Some _ => (c, None)
       | None => (c, Some (ResponseError BlobNotFound))
       end;
     CommitBlockList := λ c name ids, (<[name := ids]> c, None) |}.

(** ** Properties *)

Lemma length_string_of_list_ascii (l : list Ascii.ascii) :
  String.length (String.string_of_list_ascii l) = length l.
Proof. induction l as [|a l IH]; cbn; congruence. Qed.

Lemma enc_inj (a b : Z) :
  0 ≤ a < 64 → 0 ≤ b < 64 → enc a = enc b → a = b.
Proof.
  intros Ha Hb Hab.
  assert (forallb (λ a, forallb (λ b,
            implb (Ascii.eqb (enc a) (enc b)) (a =? b)) (seqZ 0 64)) (seqZ 0 64)
          = true) as Hall by (vm_compute; reflexivity).
  rewrite forallb_forall in Hall.
  specialize (Hall a). rewrite forallb_forall in Hall.
  specialize (Hall ltac:(apply list_elem_of_In, elem_of_seqZ; lia) b
                   ltac:(apply list_elem_of_In, elem_of_seqZ; lia)).
  rewrite Hab, Ascii.eqb_refl in Hall. cbn in Hall. lia.
Qed.

Lemma sextets_inj (v w : Z) :
  0 ≤ v < 2 ^ 24 → 0 ≤ w < 2 ^ 24 →
  enc (v / 2 ^ 18 mod 64) = enc (w / 2 ^ 18 mod 64) →
  enc (v / 2 ^ 12 mod 64) = enc (w / 2 ^ 12 mod 64) →
  enc (v / 2 ^ 6 mod 64) = enc (w / 2 ^ 6 mod 64) →
  enc (v mod 64) = enc (w mod 64) →
  v = w.
Proof.
  intros Hv Hw H1 H2 H3 H4.
  apply enc_inj in H1; [|by apply Z.mod_pos_bound..].
  apply enc_inj in H2; [|by apply Z.mod_pos_bound..].
  apply enc_inj in H3; [|by apply Z.mod_pos_bound..].
  apply enc_inj in H4; [|by apply Z.mod_pos_bound..].
  change (2 ^ 18) with 262144 in *. change (2 ^ 12) with 4096 in *.
  change (2 ^ 6) with 64 in *. change (2 ^ 24) with 16777216 in *.
  Z.div_mod_to_equations. lia.
Qed.

Lemma blockID_inj (a b : Z) :
  blockIDIntToBase64 a = blockIDIntToBase64 b → uint32 a = uint32 b.
Proof.
  unfold blockIDIntToBase64, EncodeToString. intros H.
  apply (f_equal String.list_ascii_of_string) in H.
  rewrite !String.list_ascii_of_string_of_list_ascii in H.
  assert (0 ≤ uint32 a < 2 ^ 32) as Ha by (apply Z.mod_pos_bound; lia).
  assert (0 ≤ uint32 b < 2 ^ 32) as Hb by (apply Z.mod_pos_bound; lia).
  revert H Ha Hb. generalize (uint32 a) (uint32 b). clear a b. intros a b H Ha Hb.
  unfold PutUint32 in H. cbn [replicate drop app Encode] in H.
  injection H as H1 H2 H3 H4 H5 H6 H7 H8.
  change (2 ^ 32) with 4294967296 in *.
  assert (∀ x, 0 ≤ x mod 256 < 256) as Hbyte by (intros; by apply Z.mod_pos_bound).
  pose proof (Hbyte a) as A0. pose proof (Hbyte (a / 2 ^ 8)) as A1.
  pose proof (Hbyte (a / 2 ^ 16)) as A2. pose proof (Hbyte (a / 2 ^ 24)) as A3.
  pose proof (Hbyte b) as B0. pose proof (Hbyte (b / 2 ^ 8)) as B1.
  pose proof (Hbyte (b / 2 ^ 16)) as B2. pose proof (Hbyte (b / 2 ^ 24)) as B3.
  unshelve epose proof (sextets_inj _ _ _ _ H1 H2 H3 H4) as V1;
    [lia..|].
  unshelve epose proof (sextets_inj _ _ _ _ H5 H6 H7 H8) as V2;
    [lia..|].
  clear H1 H2 H3 H4 H5 H6 H7 H8 Hbyte.
  assert (a mod 256 = b mod 256 ∧ a / 2 ^ 8 mod 256 = b / 2 ^ 8 mod 256 ∧
          a / 2 ^ 16 mod 256 = b / 2 ^ 16 mod 256 ∧
          a / 2 ^ 24 mod 256 = b / 2 ^ 24 mod 256) as (E0 & E1 & E2 & E3) by lia.
  clear V1 V2 A0 A1 A2 A3 B0 B1 B2 B3.
  change (2 ^ 8) with 256 in *. change (2 ^ 16) with 65536 in *.
  change (2 ^ 24) with 16777216 in *.
  Z.div_mod_to_equations. lia.
Qed.

Lemma int_in_range (z : Z) : - 2 ^ 63 ≤ z < 2 ^ 63 → int z = z.
Proof. intros Hz. unfold int. rewrite Z.mod_small; lia. Qed.

Lemma blockIDs_S (n k : nat) :
  blockIDs n (S k) = blockIDIntToBase64 (Z.of_nat (n + 1)) :: blockIDs (S n) k.
Proof.
  unfold blockIDs. cbn [seq fmap list_fmap]. f_equal.
  rewrite <- fmap_S_seq, <- list_fmap_compose.
  apply list_fmap_ext. intros _ i _. unfold compose. do 2 f_equal. lia.
Qed.

Lemma NoDup_blockIDs (n k : nat) :
  Z.of_nat (n + k) < 2 ^ 32 → NoDup (blockIDs n k).
Proof.
  intros Hk. apply NoDup_fmap_2_strong; [|apply NoDup_seq].
  intros i j Hi Hj Hij. apply elem_of_seq in Hi, Hj.
  apply blockID_inj in Hij. unfold uint32 in Hij.
  rewrite !Z.mod_small in Hij by lia. lia.
Qed.

Section Appending.

Import azure.

Variable d : Deps.
Variable bd : BlockDeps (Container d).
Variable rw : Azure.

Lemma blockNames_Some (ids : list string) : blockNames (Some <$> ids) = Some ids.
Proof. induction ids as [|i ids IH]; [done|]. cbn. by rewrite IH. Qed.

Lemma Appends_tracker (calls : list (string * KeyPath * list Byte.byte)) :
  ∀ (c c' : Container d) (object : string) (ids0 : list string) (t' : AppendTracker),
    (∀ c1 n ids c2, CommitBlockList bd c1 n ids = (c2, None) →
                    GetBlockList bd c2 n = Ok (Some <$> ids)) →
    GetBlockList bd c object = Ok (Some <$> ids0) →
    Z.of_nat (length ids0 + length calls) < 2 ^ 32 →
    Appends d bd rw c (appendTracker object) calls = (Returns (t', None), c') →
    t' = appendTracker object ∧
    GetBlockList bd c' object =
      Ok (Some <$> (ids0 ++ blockIDs (length ids0) (length calls))).
Proof.
  induction calls as [|[[name keypath] buffer] calls IH];
    intros c c' object ids0 t' Hlaw Hget Hlen Hrun.
  - cbn in Hrun. injection Hrun as <- <-. by rewrite app_nil_r.
  - cbn [Appends] in Hrun. unfold Append, append in Hrun.
    rewrite Hget, length_fmap, blockNames_Some in Hrun.
    cbn [length] in Hlen.
    rewrite int_in_range in Hrun by lia.
    destruct (StageBlock bd c object _ buffer) as [c1 [e|]]; [done|].
    cbn [non_nil] in Hrun.
    destruct (CommitBlockList bd c1 object _) as [c2 [e|]] eqn:HC; [done|].
    cbn [non_nil] in Hrun.
    apply Hlaw in HC.
    apply (IH _ _ _ _ _ Hlaw HC) in Hrun as [-> Hget'].
    + split; [done|]. rewrite Hget'. rewrite length_app. cbn [length].
      rewrite blockIDs_S, <- app_assoc. cbn [app].
      do 5 f_equal; [lia|f_equal; lia].
    + rewrite length_app. cbn [length]. lia.
Qed.

(** X21.  The ids that [append] gives to blocks: every id has 88
    characters, whatever the number, and two numbers get the same id
    exactly when they agree as [uint32] -- so the ids of fewer than 2^32
    blocks are pairwise different, and block 2^32 + 1 gets the id of
    block 1. *)
Theorem block_ids_have_one_length (a b : Z) :
  String.length (blockIDIntToBase64 a) = 88%nat ∧
  (blockIDIntToBase64 a = blockIDIntToBase64 b ↔ uint32 a = uint32 b).
Proof.
  split.
  - unfold blockIDIntToBase64, EncodeToString.
    rewrite length_string_of_list_ascii. reflexivity.
  - split; [apply blockID_inj|].
    unfold blockIDIntToBase64. by intros ->.
Qed.

(** X22.  A caller starts an object with [Append] and a nil tracker and
    goes on with the tracker it gets back.  Suppose the SDK reports a
    committed block list as it was committed, and the first upload left
    the object with the blocks [ids0].  If all the calls returned without
    error, then the tracker names the object of the first call, whatever
    names and key paths the later calls were given, and the object's
    committed blocks are [ids0] followed by one block per later call,
    numbered on from [length ids0 + 1]; below 2^32 blocks these new ids
    are pairwise different. *)
Theorem Append_commits_numbered_blocks (c c' : Container d) (name object : string)
    (keypath : KeyPath) (buffer : list Byte.byte)
    (calls : list (string * KeyPath * list Byte.byte))
    (ids0 : list string) (t' : AppendTracker) :
  (∀ c1 n ids c2, CommitBlockList bd c1 n ids = (c2, None) →
                  GetBlockList bd c2 n = Ok (Some <$> ids)) →
  object = ObjectFileName d (KeyPathWithPrefix d keypath (Prefix rw)) name →
  GetBlockList bd (UploadStream d c object buffer).1 object = Ok (Some <$> ids0) →
  Z.of_nat (length ids0 + length calls) < 2 ^ 32 →
  Appends d bd rw c NilTracker ((name, keypath, buffer) :: calls) =
    (Returns (t', None), c') →
  t' = appendTracker object ∧
  GetBlockList bd c' object =
    Ok (Some <$> (ids0 ++ blockIDs (length ids0) (length calls))) ∧
  NoDup (blockIDs (length ids0) (length calls)).
Proof.
  intros Hlaw -> Hget Hlen Hrun.
  cbn [Appends] in Hrun. unfold Append, writeAll, writer in Hrun.
  destruct (UploadStream d c _ buffer) as [c1 [e|]]; [done|].
  cbn [non_nil fst] in Hrun, Hget.
  destruct (Appends_tracker _ _ _ _ _ _ Hlaw Hget Hlen Hrun) as [-> Hget'].
  split_and!; [done|done|]. by apply NoDup_blockIDs.
Qed.

End Appending.

(** X22 at two appends after the first upload, the second under another
    name. *)
Lemma Append_commits_numbered_blocks_witness :
  let rw := {| azure.Prefix := "single-tenant" |} in
  let calls := [("other", ["elsewhere"], [Byte.x02]); ("data", ["wal"], [Byte.x03])] in
  let r := Appends memBlockDeps memBlocks rw ∅ NilTracker
             (("data", ["wal"], [Byte.x01]) :: calls) in
  let object := "single-tenant/wal/data" in
  match r.1 with Returns (t', _) => t' | Panics => OtherTracker end =
    appendTracker object ∧
  GetBlockList memBlocks r.2 object =
    azure.Ok (Some <$> ([] ++ blockIDs (length (@nil string)) (length calls))) ∧
  NoDup (blockIDs (length (@nil string)) (length calls)).
Proof.
  intros rw calls r object.
  apply (Append_commits_numbered_blocks memBlockDeps memBlocks rw ∅ r.2 "data" object
           ["wal"] [Byte.x01] calls []).
  - cbn. intros c1 n ids c2 [= <-]. by rewrite lookup_insert_eq.
  - reflexivity.
  - reflexivity.
  - cbn. lia.
  - vm_compute. reflexivity.
Defined.

End azure_append.

(** * Package azure: listing *)

Module azure_list.

Import azure.

(** [dir], the separator of the virtual directories. *)
Definition dir : string := "/".

(** Of a listed blob the code reads the name and the time of the last
    modification; both are reached through pointers and may be nil. *)
Record BlobItem (Time : Type) : Type := {
  Name : option string;
  LastModified : option Time
}.
Arguments Name {Time} _.
Arguments LastModified {Time} _.

(** [backend.FindMatch] *)
Record FindMatch (Time : Type) : Type := {
  Key : string;
  Modified : Time
}.
Arguments Key {Time} _.
Arguments Modified {Time} _.

Section Listing.

(** What the code calls and does not define: [path.Join],
    [strings.TrimSuffix], [strings.TrimPrefix], [strings.Split],
    [uuid.Parse], the two file names of package [backend], and the pagers
    of the SDK.  A pager is the list of the answers that [NextPage] is
    going to give, [More] holding while the list is not empty; the
    entries of a page are pointers. *)
Variable d : Deps.
Variable rw : Azure.
Variables UUID Time : Type.
Variable path_Join : list string → string.
Variables TrimSuffix TrimPrefix : string → string → string.
Variable Split : string → string → list string.
Variable uuid_Parse : string → sdk UUID.
Variables MetaName CompactedMetaName : string.

Definition pager : Type := list (sdk (list (option (BlobItem Time)))).

Variable NewListBlobsHierarchyPager : Container d → string → string → pager.
Variable NewListBlobsFlatPager : Container d → string → pager.

(** [prefix := path.Join(keypath...)], with [dir] appended when it is not
    empty. *)
Definition prefixOf (keypath : KeyPath) : string :=
  let prefix := path_Join keypath in
  if (0 <? String.length prefix)%nat then prefix +:+ dir else prefix.

(** *** [List] *)

(** The inner loop of [List] over the prefixes of one page: the objects
    so far, and the error if the loop returned. *)
Fixpoint listPrefixes (prefix : string) (BlobPrefixes : list (option (BlobItem Time)))
    (objects : list string) : outcome (list string * error) :=
  match BlobPrefixes with
  | [] => Returns (objects, None)
  | None :: _ => Panics
  | Some b :: rest =>
      match Name b with
      | None =>
          Returns (objects,
                   Some (OtherError "unexpected empty blob name when listing %s: %w"))
      | Some name =>
          listPrefixes prefix rest
            (objects ++ [TrimPrefix (TrimSuffix name dir) prefix])
      end
  end.

Fixpoint listPages (prefix : string) (p : pager) (objects : list string)
  : outcome (list string * error) :=
  match p with
  | [] => Returns (objects, None)
  | Err e :: _ => Returns (objects, Some (Errorf "iterating tenants: %w" e))
  | Ok page :: rest =>
      match listPrefixes prefix page objects with
      | Returns (objects, None) => listPages prefix rest objects
      | r => r
      end
  end.

Definition List (c : Container d) (keypath : KeyPath)
  : outcome (list string * error) :=
  let keypath := KeyPathWithPrefix d keypath (Prefix rw) in
  let prefix := prefixOf keypath in
  listPages prefix (NewListBlobsHierarchyPager c dir prefix) [].

(** *** [ListBlocks] *)

(** The inner loop of [ListBlocks] over the blobs of one page: the two
    lists so far, or the error that [uuid.Parse] returned. *)
Fixpoint blockItems (prefix : string) (BlobItems : list (option (BlobItem Time)))
    (blockIDs compactedBlockIDs : list UUID)
  : outcome (list UUID * list UUID + errval) :=
  match BlobItems with
  | [] => Returns (inl (blockIDs, compactedBlockIDs))
  | None :: _ => Panics
  | Some b :: rest =>
      match Name b with
      | None => blockItems prefix rest blockIDs compactedBlockIDs
      | Some name =>
          let obj := TrimPrefix (TrimSuffix name dir) prefix in
          match Split obj "/" with
          | [part0; part1] =>
              if negb (String.eqb part1 MetaName) &&
                 negb (String.eqb part1 CompactedMetaName)
              then blockItems prefix rest blockIDs compactedBlockIDs
              else
                match uuid_Parse part0 with
                | Err e => Returns (inr e)
                | Ok id =>
                    if String.eqb part1 MetaName
                    then blockItems prefix rest (blockIDs ++ [id]) compactedBlockIDs
                    else if String.eqb part1 CompactedMetaName
                    then blockItems prefix rest blockIDs (compactedBlockIDs ++ [id])
                    else blockItems prefix rest blockIDs compactedBlockIDs
                end
          | _ => blockItems prefix rest blockIDs compactedBlockIDs
          end
      end
  end.

(** The outer loop: the two slices ([None] is the nil slice) and the
    error. *)
Fixpoint blockPages (prefix : string) (p : pager)
    (blockIDs compactedBlockIDs : list UUID)
  : outcome (option (list UUID) * option (list UUID) * error) :=
  match p with
  | [] => Returns (Some blockIDs, Some compactedBlockIDs, None)
  | Err e :: _ => Returns (None, None, Some (Errorf "iterating objects: %w" e))
  | Ok page :: rest =>
      match blockItems prefix page blockIDs compactedBlockIDs with
      | Returns (inl (blockIDs, compactedBlockIDs)) =>
          blockPages prefix rest blockIDs compactedBlockIDs
      | Returns (inr e) => Returns (None, None, Some e)
      | Panics => Panics
      end
  end.

Definition ListBlocks (c : Container d) (tenant : string)
  : outcome (option (list UUID) * option (list UUID) * error) :=
  let keypath := KeyPathWithPrefix d [tenant] (Prefix rw) in
  let prefix := prefixOf keypath in
  blockPages prefix (NewListBlobsFlatPager c prefix) [] [].

(** *** [Find] *)

(** The inner loop of [Find]: the matches handed to [f] so far; a named
    blob without a modification time is a nil dereference. *)
Fixpoint findItems (BlobItems : list (option (BlobItem Time)))
    (calls : list (FindMatch Time)) : outcome unit * list (FindMatch Time) :=
  match BlobItems with
  | [] => (Returns (), calls)
  | None :: rest => findItems rest calls
  | Some b :: rest =>
      match Name b with
      | None => findItems rest calls
      | Some name =>
          match LastModified b with
          | None => (Panics, calls)
          | Some t =>
              findItems rest
                (calls ++ [{| Key := TrimSuffix name dir; Modified := t |}])
          end
      end
  end.

Fixpoint findPages (p : pager) (calls : list (FindMatch Time))
  : outcome error * list (FindMatch Time) :=
  match p with
  | [] => (Returns None, calls)
  | Err e :: _ => (Returns (Some (Errorf "iterating objects: %w" e)), calls)
  | Ok page :: rest =>
      match findItems page calls with
      | (Returns _, calls) => findPages rest calls
      | (Panics, calls) => (Panics, calls)
      end
  end.

(** [Find]: the error, and the matches that [f] was called with. *)
Definition Find (c : Container d) (keypath : KeyPath)
  : outcome error * list (FindMatch Time) :=
  let keypath := KeyPathWithPrefix d keypath (Prefix rw) in
  let prefix := prefixOf keypath in
  findPages (NewListBlobsFlatPager c prefix) [].

(** ** Properties *)

(** What follows the pages that could be fetched: nothing, or a page
    that could not be fetched. *)
Definition failing (failure : option errval) (rest : pager) : pager :=
  match failure with
  | Some e => Err e :: rest
  | None => []
  end.

Lemma listPrefixes_app (prefix : string) (l1 l2 : list (option (BlobItem Time))) :
  ∀ objects,
    listPrefixes prefix (l1 ++ l2) objects =
      match listPrefixes prefix l1 objects with
      | Returns (objects, None) => listPrefixes prefix l2 objects
      | r => r
      end.
Proof.
  induction l1 as [|[b|] l1 IH]; intros objects; cbn; [done| |done].
  by destruct (Name b).
Qed.

Lemma listPages_pages (prefix : string) (pages : list (list (option (BlobItem Time))))
    (tail : pager) :
  ∀ objects,
    listPages prefix ((Ok <$> pages) ++ tail) objects =
      match listPrefixes prefix (concat pages) objects with
      | Returns (objects, None) => listPages prefix tail objects
      | r => r
      end.
Proof.
  induction pages as [|page pages IH]; intros objects; [done|].
  cbn. rewrite listPrefixes_app.
  destruct (listPrefixes prefix page objects) as [[objects' [e|]]|]; [done| |done].
  apply IH.
Qed.

Lemma blockItems_app (prefix : string) (l1 l2 : list (option (BlobItem Time))) :
  ∀ blockIDs compactedBlockIDs,
    blockItems prefix (l1 ++ l2) blockIDs compactedBlockIDs =
      match blockItems prefix l1 blockIDs compactedBlockIDs with
      | Returns (inl (blockIDs, compactedBlockIDs)) =>
          blockItems prefix l2 blockIDs compactedBlockIDs
      | r => r
      end.
Proof.
  induction l1 as [|[b|] l1 IH]; intros blockIDs compactedBlockIDs; cbn; [done| |done].
  destruct (Name b) as [name|]; [|done].
  destruct (Split _ _) as [|part0 [|part1 [|]]]; [done..| |done].
  destruct (negb _ && negb _); [done|].
  destruct (uuid_Parse part0); [|done].
  destruct (String.eqb part1 MetaName); [apply IH|].
  destruct (String.eqb part1 CompactedMetaName); apply IH.
Qed.

Lemma blockPages_pages (prefix : string) (pages : list (list (option (BlobItem Time))))
    (tail : pager) :
  ∀ blockIDs compactedBlockIDs,
    blockPages prefix ((Ok <$> pages) ++ tail) blockIDs compactedBlockIDs =
      match blockItems prefix (concat pages) blockIDs compactedBlockIDs with
      | Returns (inl (blockIDs, compactedBlockIDs)) =>
          blockPages prefix tail blockIDs compactedBlockIDs
      | Returns (inr e) => Returns (None, None, Some e)
      | Panics => Panics
      end.
Proof.
  induction pages as [|page pages IH]; intros blockIDs compactedBlockIDs; [done|].
  cbn. rewrite blockItems_app.
  destruct (blockItems prefix page blockIDs compactedBlockIDs) as [[[b c]|e]|];
    [|done..].
  apply IH.
Qed.

Lemma findItems_app (l1 l2 : list (option (BlobItem Time))) :
  ∀ calls,
    findItems (l1 ++ l2) calls =
      match findItems l1 calls with
      | (Returns _, calls) => findItems l2 calls
      | r => r
      end.
Proof.
  induction l1 as [|[b|] l1 IH]; intros calls; cbn; [done| |done].
  destruct (Name b); [|done]. by destruct (LastModified b).
Qed.

Lemma findPages_pages (pages : list (list (option (BlobItem Time)))) (tail : pager) :
  ∀ calls,
    findPages ((Ok <$> pages) ++ tail) calls =
      match findItems (concat pages) calls with
      | (Returns _, calls) => findPages tail calls
      | (Panics, calls) => (Panics, calls)
      end.
Proof.
  induction pages as [|page pages IH]; intros calls; [done|].
  cbn. rewrite findItems_app.
  destruct (findItems page calls) as [[[]|] calls']; [|done].
  apply IH.
Qed.

(** X23.  [List] and the pages.  Let the pager of [c] give the prefixes
    in the pages [pages], followed by nothing or by a page that cannot be
    fetched, and let the pager of [c'] give the same prefixes in one
    page.  Then [List] on [c] returns what it returns on [c'], however
    the prefixes are cut into pages; and when the page after them cannot
    be fetched, it returns the objects listed so far together with the
    error. *)
Theorem List_keeps_what_it_listed (c c' : Container d) (keypath : KeyPath)
    (pages : list (list (option (BlobItem Time))))
    (failure : option errval) (rest : pager) :
  NewListBlobsHierarchyPager c dir
    (prefixOf (KeyPathWithPrefix d keypath (Prefix rw))) =
    (Ok <$> pages) ++ failing failure rest →
  NewListBlobsHierarchyPager c' dir
    (prefixOf (KeyPathWithPrefix d keypath (Prefix rw))) =
    [Ok (concat pages)] →
  List c keypath =
    match List c' keypath, failure with
    | Returns (objects, None), Some e =>
        Returns (objects, Some (Errorf "iterating tenants: %w" e))
    | r, _ => r
    end.
Proof.
  intros Hc Hc'. unfold List. rewrite Hc, Hc'.
  generalize (prefixOf (KeyPathWithPrefix d keypath (Prefix rw))). intros prefix.
  rewrite listPages_pages. cbn [listPages].
  destruct (listPrefixes prefix (concat pages) []) as [[objects [e|]]|];
    destruct failure; done.
Qed.

(** X24.  [ListBlocks] and the pages.  With the pagers as in X23:
    [ListBlocks] on [c] returns what it returns on [c'], however the
    blobs are cut into pages; and when the page after them cannot be
    fetched, both lists are nil, whatever was found before. *)
Theorem ListBlocks_is_all_or_nothing (c c' : Container d) (tenant : string)
    (pages : list (list (option (BlobItem Time))))
    (failure : option errval) (rest : pager) :
  NewListBlobsFlatPager c (prefixOf (KeyPathWithPrefix d [tenant] (Prefix rw))) =
    (Ok <$> pages) ++ failing failure rest →
  NewListBlobsFlatPager c' (prefixOf (KeyPathWithPrefix d [tenant] (Prefix rw))) =
    [Ok (concat pages)] →
  ListBlocks c tenant =
    match ListBlocks c' tenant, failure with
    | Returns (_, _, None), Some e =>
        Returns (None, None, Some (Errorf "iterating objects: %w" e))
    | r, _ => r
    end ∧
  ∀ blockIDs compactedBlockIDs err,
    ListBlocks c tenant = Returns (blockIDs, compactedBlockIDs, err) →
    if non_nil err
    then blockIDs = None ∧ compactedBlockIDs = None
    else non_nil blockIDs = true ∧ non_nil compactedBlockIDs = true.
Proof.
  intros Hc Hc'. unfold ListBlocks. rewrite Hc, Hc'.
  generalize (prefixOf (KeyPathWithPrefix d [tenant] (Prefix rw))). intros prefix.
  rewrite blockPages_pages. cbn [blockPages].
  destruct (blockItems prefix (concat pages) [] []) as [[[b0 c0]|e]|];
    destruct failure as [e'|]; cbn [failing blockPages];
    (split; [done|]); intros b1 c1 err [= <- <- <-]; done.
Qed.

(** X25.  [Find] and the pages.  With the pagers as in X23: [Find] on
    [c] has called [f] with the matches it is called with on [c'],
    however the blobs are cut into pages; a page that cannot be fetched
    after them changes the error, and not what [f] was called with. *)
Theorem Find_has_called_f (c c' : Container d) (keypath : KeyPath)
    (pages : list (list (option (BlobItem Time))))
    (failure : option errval) (rest : pager) :
  NewListBlobsFlatPager c (prefixOf (KeyPathWithPrefix d keypath (Prefix rw))) =
    (Ok <$> pages) ++ failing failure rest →
  NewListBlobsFlatPager c' (prefixOf (KeyPathWithPrefix d keypath (Prefix rw))) =
    [Ok (concat pages)] →
  Find c keypath =
    match Find c' keypath, failure with
    | (Returns None, calls), Some e =>
        (Returns (Some (Errorf "iterating objects: %w" e)), calls)
    | r, _ => r
    end.
Proof.
  intros Hc Hc'. unfold Find. rewrite Hc, Hc'.
  generalize (prefixOf (KeyPathWithPrefix d keypath (Prefix rw))). intros prefix.
  rewrite findPages_pages. cbn [findPages].
  destruct (findItems (concat pages) []) as [[[]|] calls];
    destruct failure; done.
Qed.

End Listing.

(** A container given by the pages it serves and by whether a page that
    cannot be fetched follows them. *)
Definition pagedDeps : Deps :=
  {| KeyPathWithPrefix := KeyPathWithPrefix memDeps;
     ObjectFileName := ObjectFileName memDeps;
     Container := list (list (option (BlobItem Z))) * option errval;
     GetProperties := λ c name, Err (ResponseError BlobNotFound);
     DownloadBuffer := λ c name offset count, Err (ResponseError BlobNotFound);
     UploadStream := λ c name src, (c, None);
     getBlobClient := λ name, None;
     DeleteBlob := λ c name, (c, None) |}.

Definition pagedPager (c : Container pagedDeps) : pager Z :=
  (Ok <$> c.1) ++ failing Z c.2 [].

(** Stand-ins for the string functions, enough for names of the shape
    [tenant/block/file]. *)
Definition trimSuffix (s suffix : string) : string :=
  let n := (String.length s - String.length suffix)%nat in
  if String.eqb (String.substring n (String.length suffix) s) suffix
  then String.substring 0 n s else s.

Definition trimPrefix (s prefix : string) : string :=
  if String.prefix prefix s
  then String.substring (String.length prefix)
         (String.length s - String.length prefix) s
  else s.

Fixpoint splitSlash (s : string) : list string :=
  match s with
  | EmptyString => [""]
  | String a rest =>
      if Ascii.eqb a "/"
      then "" :: splitSlash rest
      else match splitSlash rest with
           | part :: parts => String a part :: parts
           | [] => [String a ""]
           end
  end.

Definition named (name : string) (t : Z) : option (BlobItem Z) :=
  Some {| Name := Some name; LastModified := Some t |}.

(** X23 at two prefixes in two pages and a third page that fails. *)
Lemma List_keeps_what_it_listed_witness :
  let rw := {| Prefix := "" |} in
  let pages := [[named "t1/b1/" 1]; [named "t1/b2/" 2]] in
  let c : Container pagedDeps := (pages, Some (OtherError "timeout")) in
  let c' : Container pagedDeps := ([concat pages], None) in
  let List := List pagedDeps rw Z (String.concat "/") trimSuffix trimPrefix
                (λ c _ _, pagedPager c) in
  List c' ["t1"] = Returns (["b1"; "b2"], None) ∧
  List c ["t1"] =
    Returns (["b1"; "b2"],
             Some (Errorf "iterating tenants: %w" (OtherError "timeout"))).
Proof.
  intros rw pages c c' L. split; [reflexivity|].
  apply (List_keeps_what_it_listed pagedDeps rw Z (String.concat "/") trimSuffix
           trimPrefix (λ c _ _, pagedPager c) c c' ["t1"] pages
           (Some (OtherError "timeout")) []); reflexivity.
Defined.

(** X24 at a block and a compacted block in two pages, and a third page
    that fails. *)
Lemma ListBlocks_is_all_or_nothing_witness :
  let rw := {| Prefix := "" |} in
  let pages := [[named "t1/b1/meta.json" 1]; [named "t1/b2/meta.compacted.json" 2]] in
  let c : Container pagedDeps := (pages, Some (OtherError "timeout")) in
  let c' : Container pagedDeps := ([concat pages], None) in
  let ListBlocks := ListBlocks pagedDeps rw string Z (String.concat "/") trimSuffix
                      trimPrefix (λ s _, splitSlash s) Ok "meta.json"
                      "meta.compacted.json" (λ c _, pagedPager c) in
  ListBlocks c' "t1" = Returns (Some ["b1"], Some ["b2"], None) ∧
  ListBlocks c "t1" =
    Returns (None, None, Some (Errorf "iterating objects: %w" (OtherError "timeout"))).
Proof.
  intros rw pages c c' L. split; [reflexivity|].
  apply (ListBlocks_is_all_or_nothing pagedDeps rw string Z (String.concat "/")
           trimSuffix trimPrefix (λ s _, splitSlash s) Ok "meta.json"
           "meta.compacted.json" (λ c _, pagedPager c) c c' "t1" pages
           (Some (OtherError "timeout")) []); reflexivity.
Defined.

(** X25 at two blobs in two pages and a third page that fails. *)
Lemma Find_has_called_f_witness :
  let rw := {| Prefix := "" |} in
  let pages := [[named "t1/b1/meta.json" 1]; [named "t1/b2/data" 2]] in
  let c : Container pagedDeps := (pages, Some (OtherError "timeout")) in
  let c' : Container pagedDeps := ([concat pages], None) in
  let Find := Find pagedDeps rw Z (String.concat "/") trimSuffix
                (λ c _, pagedPager c) in
  let calls := [{| Key := "t1/b1/meta.json"; Modified := 1 |};
                {| Key := "t1/b2/data"; Modified := 2 |}] in
  Find c' ["t1"] = (Returns None, calls) ∧
  Find c ["t1"] =
    (Returns (Some (Errorf "iterating objects: %w" (OtherError "timeout"))), calls).
Proof.
  intros rw pages c c' F calls. split; [reflexivity|].
  apply (Find_has_called_f pagedDeps rw Z (String.concat "/") trimSuffix
           (λ c _, pagedPager c) c c' ["t1"] pages
           (Some (OtherError "timeout")) []); reflexivity.
Defined.

End azure_list.

(** * Package pprofile: the slice of scope profiles *)

Module pprofile.

Local Open Scope nat_scope.

(** [internal.State]; [AssertMutable] panics unless the state is
    [StateMutable]. *)
Inductive State : Type := StateMutable | StateReadOnly.

Section Slice.

(** [otlpprofiles.ScopeProfiles] and its zero value.  [growCap] is the
    capacity the runtime would like when [append] has to allocate (old
    capacity, length needed); the new array has at least the length
    needed.  [maxCap] is the largest capacity for which [make] allocates
    a slice of pointers; asked for more, [make] panics (cap out of
    range).  [elemCopyTo] is [ScopeProfiles.CopyTo] on two element
    pointers and [SliceStable] is [sort.SliceStable] on the elements;
    neither is defined in this file. *)
Variable V : Type.
Variable zero : V.
Variable growCap : nat → nat → nat.
Variable maxCap : nat.
Variable elemCopyTo : option nat → option nat → list V → outcome unit * list V.
Variable SliceStable :
  (option nat → option nat → bool) → list (option nat) → list (option nat).

(** [*otlpprofiles.ScopeProfiles]: an address among the structs, or nil. *)
Abbreviation ptr := (option nat).

(** A Go slice [[]*otlpprofiles.ScopeProfiles]: nil, or a backing array
    (as long as the capacity) and a length. *)
Inductive slice : Type :=
  | Nil
  | Slice (backing : list ptr) (len : nat).

Definition slen (s : slice) : nat :=
  match s with Nil => 0 | Slice _ n => n end.

Definition scap (s : slice) : nat :=
  match s with Nil => 0 | Slice a _ => length a end.

Definition backingOf (s : slice) : list ptr :=
  match s with Nil => [] | Slice a _ => a end.

(** The elements one can index. *)
Definition elems (s : slice) : list ptr := take (slen s) (backingOf s).

Definition wfs (s : slice) : Prop := slen s ≤ scap s.

(** [append(s, xs...)]: in place when the capacity suffices, into a new
    array otherwise; with nothing to append the slice comes back as it
    is. *)
Definition append (s : slice) (xs : list ptr) : slice :=
  match xs with
  | [] => s
  | _ =>
      let n := slen s + length xs in
      if n <=? scap s
      then Slice (elems s ++ xs ++ drop n (backingOf s)) n
      else Slice (elems s ++ xs ++
                  replicate (Nat.max n (growCap (scap s) n) - n) None) n
  end.

(** [s[:n]] and [s[:n:cap(s)]] for [n] within the capacity; slicing a
    nil slice to nothing gives nil. *)
Definition reslice (s : slice) (n : nat) : slice :=
  match s with
  | Nil => Nil
  | Slice a _ => Slice a n
  end.

(** The slice headers that [orig] pointers point to, and the structs
    that element pointers point to. *)
Record World : Type := {
  slices : list slice;
  structs : list V
}.

(** [ScopeProfilesSlice]; both fields are pointers and nil in the zero
    value. *)
Record ScopeProfilesSlice : Type := {
  orig : option nat;
  state : option State
}.

Definition PM (A : Type) : Type := World → outcome A * World.

#[local] Instance PM_ret : MRet PM := λ A a w, (Returns a, w).

#[local] Instance PM_bind : MBind PM :=
  λ A B k m w, match m w with
               | (Returns a, w') => k a w'
               | (Panics, w') => (Panics, w')
               end.

Definition ppanic {A} : PM A := λ w, (Panics, w).

(** [*es.orig] read and written. *)
Definition getOrig (es : ScopeProfilesSlice) : PM slice :=
  λ w, match orig es with
       | Some l => match slices w !! l with
                   | Some s => (Returns s, w)
                   | None => (Panics, w)
                   end
       | None => (Panics, w)
       end.

Definition setOrig (es : ScopeProfilesSlice) (s : slice) : PM unit :=
  λ w, match orig es with
       | Some l =>
           if l <? length (slices w)
           then (Returns tt, {| slices := <[l := s]> (slices w);
                                structs := structs w |})
           else (Panics, w)
       | None => (Panics, w)
       end.

Definition AssertMutable (st : option State) : PM unit :=
  match st with
  | Some StateMutable => mret tt
  | _ => ppanic
  end.

(** [&otlpprofiles.ScopeProfiles{}] *)
Definition newStruct : PM ptr :=
  λ w, (Returns (Some (length (structs w))),
        {| slices := slices w; structs := structs w ++ [zero] |}).

Definition NewScopeProfilesSlice : PM ScopeProfilesSlice :=
  λ w, (Returns {| orig := Some (length (slices w)); state := Some StateMutable |},
        {| slices := slices w ++ [Nil]; structs := structs w |}).

Definition Len (es : ScopeProfilesSlice) : PM Z :=
  s ← getOrig es; mret (Z.of_nat (slen s)).

(** [At]: indexing outside [0 .. len-1] panics.  The element comes back
    as its pointer. *)
Definition At (es : ScopeProfilesSlice) (i : Z) : PM ptr :=
  s ← getOrig es;
  if ((0 <=? i) && (i <? Z.of_nat (slen s)))%Z
  then match backingOf s !! Z.to_nat i with
       | Some p => mret p
       | None => ppanic
       end
  else ppanic.

Definition EnsureCapacity (es : ScopeProfilesSlice) (newCap : Z) : PM unit :=
  AssertMutable (state es);;
  s ← getOrig es;
  if (newCap <=? Z.of_nat (scap s))%Z then mret tt
  else if (Z.of_nat maxCap <? newCap)%Z then ppanic
  else setOrig es (Slice (elems s ++ replicate (Z.to_nat newCap - slen s) None)
                         (slen s)).

Definition AppendEmpty (es : ScopeProfilesSlice) : PM ptr :=
  AssertMutable (state es);;
  s ← getOrig es;
  p ← newStruct;
  setOrig es (append s [p]);;
  n ← Len es;
  At es (n - 1)%Z.

Definition MoveAndAppendTo (es dest : ScopeProfilesSlice) : PM unit :=
  AssertMutable (state es);;
  AssertMutable (state dest);;
  d ← getOrig dest;
  match d with
  | Nil => s ← getOrig es; setOrig dest s
  | Slice _ _ => s ← getOrig es; setOrig dest (append d (elems s))
  end;;
  setOrig es Nil.

(** The loop of [RemoveIf] over the indices [idx], on the backing array
    [a] with [newLen] elements kept so far. *)
Fixpoint removeIfLoop (f : ptr → bool) (a : list ptr) (idx : list nat)
    (newLen : nat) : list ptr * nat :=
  match idx with
  | [] => (a, newLen)
  | i :: idx =>
      match a !! i with
      | Some x =>
          if f x then removeIfLoop f a idx newLen
          else if newLen =? i then removeIfLoop f a idx (S newLen)
          else removeIfLoop f (<[newLen := x]> a) idx (S newLen)
      | None => (a, newLen)
      end
  end.

(** [RemoveIf], for an [f] that only looks at the element. *)
Definition RemoveIf (es : ScopeProfilesSlice) (f : ptr → bool) : PM unit :=
  AssertMutable (state es);;
  s ← getOrig es;
  let '(a, newLen) := removeIfLoop f (backingOf s) (seq 0 (slen s)) 0 in
  setOrig es (match s with Nil => Nil | Slice _ _ => Slice a newLen end).

(** A computation on the structs alone. *)
Definition onStructs (f : list V → outcome unit * list V) : PM unit :=
  λ w, let '(o, vs) := f (structs w) in
       (o, {| slices := slices w; structs := vs |}).

(** The element copies of [CopyTo], for the indices [idx]. *)
Fixpoint copyElems (src dst : list ptr) (idx : list nat) : PM unit :=
  match idx with
  | [] => mret tt
  | i :: idx =>
      match src !! i, dst !! i with
      | Some p, Some q =>
          onStructs (elemCopyTo p q);; copyElems src dst idx
      | _, _ => ppanic
      end
  end.

(** [make([]otlpprofiles.ScopeProfiles, n)]: [n] zero structs side by
    side, and the pointers to them. *)
Definition newStructs (n : nat) : PM (list ptr) :=
  λ w, (Returns (Some <$> seq (length (structs w)) n),
        {| slices := slices w; structs := structs w ++ replicate n zero |}).

Definition CopyTo (es dest : ScopeProfilesSlice) : PM unit :=
  AssertMutable (state dest);;
  s ← getOrig es;
  d ← getOrig dest;
  if slen s <=? scap d
  then
    setOrig dest (reslice d (slen s));;
    s ← getOrig es;
    d ← getOrig dest;
    copyElems (backingOf s) (backingOf d) (seq 0 (slen s))
  else
    wrappers ← newStructs (slen s);
    copyElems (backingOf s) wrappers (seq 0 (slen s));;
    setOrig dest (Slice wrappers (slen s)).

Definition Sort (es : ScopeProfilesSlice) (less : ptr → ptr → bool) : PM unit :=
  AssertMutable (state es);;
  s ← getOrig es;
  setOrig es (match s with
              | Nil => Nil
              | Slice a n => Slice (SliceStable less (take n a) ++ drop n a) n
              end).

(** [AppendEmpty] [k] times. *)
Fixpoint appendEmpties (es : ScopeProfilesSlice) (k : nat) : PM (list ptr) :=
  match k with
  | O => mret []
  | S k => p ← AppendEmpty es; ps ← appendEmpties es k; mret (p :: ps)
  end.

(** ** Properties of the slice *)

(** The wrapper of the header at address [l], mutable. *)
Definition mutableAt (l : nat) : ScopeProfilesSlice :=
  {| orig := Some l; state := Some StateMutable |}.

(** Writing the header at address [l]. *)
Definition withSlice (l : nat) (s : slice) (w : World) : World :=
  {| slices := <[l := s]> (slices w); structs := structs w |}.

Ltac run_PM :=
  unfold AssertMutable, getOrig, setOrig, ppanic, newStruct, onStructs;
  unfold mbind, PM_bind, mret, PM_ret;
  cbn [orig state slices structs fst snd mutableAt withSlice].

Lemma length_elems s : wfs s → length (elems s) = slen s.
Proof. intros Hwf. unfold elems. apply length_take_le. by destruct s. Qed.

Lemma elems_append s xs : wfs s → elems (append s xs) = elems s ++ xs.
Proof.
  intros Hwf. pose proof (length_elems s Hwf) as Hlen.
  unfold append. destruct xs as [|x xs]; [by rewrite app_nil_r|].
  set (n := slen s + length (x :: xs)).
  destruct (n <=? scap s); unfold elems at 1; cbn [slen backingOf];
    rewrite app_assoc; apply take_app_length'; rewrite length_app; lia.
Qed.

Lemma wfs_append s xs : wfs s → wfs (append s xs).
Proof.
  intros Hwf. pose proof (length_elems s Hwf) as Hlen. unfold append.
  destruct xs as [|x xs]; [done|].
  set (n := slen s + length (x :: xs)).
  destruct (Nat.leb_spec n (scap s)) as [Hle|Hgt]; unfold wfs; cbn [slen scap];
    rewrite !length_app, Hlen; [|fold n; lia].
  rewrite length_drop. destruct s; cbn [scap backingOf slen] in *; lia.
Qed.

(** Appending within the capacity keeps the capacity: the backing array
    is reused. *)
Lemma scap_append_in_place s xs :
  wfs s → slen s + length xs ≤ scap s → scap (append s xs) = scap s.
Proof.
  intros Hwf Hfit. pose proof (length_elems s Hwf) as Hlen. unfold append.
  destruct xs as [|x xs]; [done|].
  destruct (Nat.leb_spec (slen s + length (x :: xs)) (scap s)) as [_|?]; [|lia].
  cbn [scap]. rewrite !length_app, Hlen, length_drop.
  unfold wfs in Hwf. destruct s; cbn in *; lia.
Qed.

Lemma Len_slice es l s0 w :
  orig es = Some l → slices w !! l = Some s0 →
  Len es w = (Returns (Z.of_nat (slen s0)), w).
Proof. intros Ho Hs. unfold Len. run_PM. by rewrite Ho, Hs. Qed.

Lemma Len_withSlice l s0 w :
  l < length (slices w) →
  Len (mutableAt l) (withSlice l s0 w) =
    (Returns (Z.of_nat (slen s0)), withSlice l s0 w).
Proof.
  intros Hl. apply Len_slice with l; [done|].
  unfold withSlice; cbn [slices]. by apply list_lookup_insert_eq.
Qed.

Lemma removeIfLoop_spec f k :
  ∀ i a newLen, newLen ≤ i → i + k ≤ length a →
  ∃ a' n',
    removeIfLoop f a (seq i k) newLen = (a', n') ∧
    length a' = length a ∧ n' ≤ i + k ∧
    take n' a' = take newLen a ++ filter (λ p, f p = false) (take k (drop i a)).
Proof.
  induction k as [|k IH]; intros i a newLen Hle Hlen.
  - exists a, newLen. cbn [seq removeIfLoop]. rewrite take_0.
    split; [done|]. split; [done|]. split; [lia|]. by rewrite app_nil_r.
  - cbn [seq removeIfLoop].
    destruct (lookup_lt_is_Some_2 a i) as [x Hx]; [lia|]. rewrite Hx.
    rewrite (drop_S _ _ _ Hx). cbn [take]. rewrite filter_cons.
    destruct (f x) eqn:Hf.
    + destruct (IH (S i) a newLen) as (a' & n' & -> & Hl & Hn & Ht); [lia..|].
      exists a', n'. split; [done|]. split; [done|]. split; [lia|].
      by rewrite decide_False.
    + rewrite decide_True by done.
      destruct (Nat.eqb_spec newLen i) as [->|Hne].
      * destruct (IH (S i) a (S i)) as (a' & n' & -> & Hl & Hn & Ht); [lia..|].
        exists a', n'. split; [done|]. split; [done|]. split; [lia|].
        rewrite Ht, (take_S_r _ _ _ Hx). by rewrite <- app_assoc.
      * destruct (IH (S i) (<[newLen := x]> a) (S newLen))
          as (a' & n' & -> & Hl & Hn & Ht); [lia|rewrite length_insert; lia|].
        exists a', n'. split; [done|].
        rewrite length_insert in Hl. split; [done|]. split; [lia|].
        rewrite Ht, drop_insert_lt by lia.
        rewrite (take_S_r _ _ x) by (apply list_lookup_insert_eq; lia).
        rewrite take_insert_ge by lia. by rewrite <- app_assoc.
Qed.

(** X12: [RemoveIf] keeps, in their order, exactly the elements for
    which [f] answers false.  The slice keeps its backing array and its
    capacity, and no other slice and no struct changes. *)
Theorem RemoveIf_keeps_the_rest (w : World) (l : nat) (s : slice) (f : ptr → bool) :
  slices w !! l = Some s → wfs s →
  ∃ s',
    RemoveIf (mutableAt l) f w = (Returns tt, withSlice l s' w) ∧
    elems s' = filter (λ p, f p = false) (elems s) ∧
    scap s' = scap s ∧ wfs s' ∧
    Len (mutableAt l) (withSlice l s' w) =
      (Returns (Z.of_nat (length (filter (λ p, f p = false) (elems s)))),
       withSlice l s' w).
Proof.
  intros Hs Hwf. pose proof (lookup_lt_Some _ _ _ Hs) as Hl.
  destruct (removeIfLoop_spec f (slen s) 0 (backingOf s) 0) as
    (a' & n' & Hloop & Hlen & Hn & Ht); [lia|by destruct s|].
  rewrite take_0, app_nil_l, drop_0 in Ht. fold (elems s) in Ht.
  unfold RemoveIf. run_PM. rewrite Hs, Hloop.
  destruct (Nat.ltb_spec l (length (slices w))) as [_|?]; [|lia].
  assert (length (filter (λ p, f p = false) (elems s)) = n') as Hfl.
  { rewrite <- Ht. apply length_take_le. unfold wfs in Hwf.
    destruct s; cbn in *; lia. }
  unfold wfs in Hwf. destruct s as [|a n].
  - exists Nil. split; [done|]. split; [done|]. split; [done|]. split; [done|].
    by rewrite Len_withSlice.
  - exists (Slice a' n'). split; [done|]. split; [done|].
    cbn [scap slen backingOf] in *. split; [done|]. split; [unfold wfs; cbn; lia|].
    rewrite Len_withSlice by done. by rewrite Hfl.
Qed.

(** X13: [Len] is the number of elements and [At(i)] is the [i]-th of
    them for [0 <= i < Len()]; for a negative [i] and for [i >= Len()]
    [At] panics.  Neither changes anything, and neither asks for a
    mutable state. *)
Theorem At_indexes_the_elements (w : World) (es : ScopeProfilesSlice)
    (l : nat) (s : slice) (i : Z) :
  orig es = Some l → slices w !! l = Some s → wfs s →
  Len es w = (Returns (Z.of_nat (length (elems s))), w) ∧
  ((0 ≤ i < Z.of_nat (length (elems s)))%Z →
     ∃ p, elems s !! Z.to_nat i = Some p ∧ At es i w = (Returns p, w)) ∧
  ((i < 0 ∨ Z.of_nat (length (elems s)) ≤ i)%Z → At es i w = (Panics, w)).
Proof.
  intros Ho Hs Hwf. pose proof (length_elems s Hwf) as Hlen. rewrite Hlen.
  split; [by apply Len_slice with l|].
  unfold At. run_PM. rewrite Ho, Hs. split.
  - intros Hi.
    destruct (Z.leb_spec 0 i) as [_|?]; [|lia].
    destruct (Z.ltb_spec i (Z.of_nat (slen s))) as [_|?]; [|lia]. cbn [andb].
    destruct (lookup_lt_is_Some_2 (elems s) (Z.to_nat i)) as [p Hp]; [lia|].
    exists p. split; [done|].
    unfold elems in Hp. rewrite lookup_take_lt in Hp by lia. by rewrite Hp.
  - intros [Hi|Hi].
    + by destruct (Z.leb_spec 0 i) as [?|_]; [lia|].
    + destruct (Z.ltb_spec i (Z.of_nat (slen s))) as [?|_]; [lia|].
      by rewrite andb_false_r.
Qed.

(** X14: [MoveAndAppendTo] between two different slices: the
    destination ends with its own elements followed by those of the
    source, in order, and the source ends as a nil slice.  A nil
    destination takes over the source's array as it is. *)
Theorem MoveAndAppendTo_moves (w : World) (l1 l2 : nat) (s d : slice) :
  l1 ≠ l2 → slices w !! l1 = Some s → slices w !! l2 = Some d →
  wfs s → wfs d →
  ∃ d',
    MoveAndAppendTo (mutableAt l1) (mutableAt l2) w =
      (Returns tt, withSlice l1 Nil (withSlice l2 d' w)) ∧
    elems d' = elems d ++ elems s ∧ wfs d' ∧
    (d = Nil → d' = s) ∧
    Len (mutableAt l1) (withSlice l1 Nil (withSlice l2 d' w)) =
      (Returns 0%Z, withSlice l1 Nil (withSlice l2 d' w)).
Proof.
  intros Hne Hs Hd Hwfs Hwfd.
  pose proof (lookup_lt_Some _ _ _ Hs) as Hl1.
  pose proof (lookup_lt_Some _ _ _ Hd) as Hl2.
  exists (match d with Nil => s | Slice _ _ => append d (elems s) end).
  split; [|split; [|split; [|split]]].
  - unfold MoveAndAppendTo. run_PM. rewrite Hd.
    destruct d as [|a n]; run_PM; rewrite Hs;
      (destruct (Nat.ltb_spec l2 (length (slices w))) as [_|?]; [|lia]);
      run_PM; rewrite length_insert;
      (destruct (Nat.ltb_spec l1 (length (slices w))) as [_|?]; [|lia]); done.
  - destruct d; [done|]. by apply elems_append.
  - destruct d; [done|]. by apply wfs_append.
  - by intros ->.
  - apply Len_withSlice. cbn [withSlice slices]. by rewrite length_insert.
Qed.

(** X15: [MoveAndAppendTo] from a slice to itself empties it: whatever
    it held, the slice ends as a nil slice of length zero. *)
Theorem MoveAndAppendTo_itself_empties (w : World) (l : nat) (s : slice) :
  slices w !! l = Some s →
  MoveAndAppendTo (mutableAt l) (mutableAt l) w = (Returns tt, withSlice l Nil w) ∧
  Len (mutableAt l) (withSlice l Nil w) = (Returns 0%Z, withSlice l Nil w).
Proof.
  intros Hs. pose proof (lookup_lt_Some _ _ _ Hs) as Hl. split.
  - unfold MoveAndAppendTo. run_PM. rewrite Hs.
    destruct s as [|a n]; run_PM; rewrite Hs;
      (destruct (Nat.ltb_spec l (length (slices w))) as [_|?]; [|lia]);
      run_PM; rewrite length_insert;
      (destruct (Nat.ltb_spec l (length (slices w))) as [_|?]; [|lia]);
      by rewrite list_insert_insert_eq.
  - by apply Len_withSlice.
Qed.

Lemma append_one s p :
  wfs s →
  slen (append s [p]) = S (slen s) ∧ backingOf (append s [p]) !! slen s = Some p.
Proof.
  intros Hwf. pose proof (length_elems s Hwf) as Hlen. unfold append.
  destruct (slen s + length [p] <=? scap s); cbn [slen backingOf length];
    (split; [lia|]); rewrite <- Hlen at 1; by apply list_lookup_middle.
Qed.

Lemma AppendEmpty_spec w l s :
  slices w !! l = Some s → wfs s →
  AppendEmpty (mutableAt l) w =
    (Returns (Some (length (structs w))),
     {| slices := <[l := append s [Some (length (structs w))]]> (slices w);
        structs := structs w ++ [zero] |}).
Proof.
  intros Hs Hwf. pose proof (lookup_lt_Some _ _ _ Hs) as Hl.
  destruct (append_one s (Some (length (structs w))) Hwf) as [Hn Hp].
  unfold AppendEmpty, Len, At. run_PM. rewrite Hs. run_PM.
  destruct (Nat.ltb_spec l (length (slices w))) as [_|?]; [|lia]. run_PM.
  rewrite list_lookup_insert_eq by done. run_PM.
  rewrite list_lookup_insert_eq by done. rewrite Hn.
  destruct (Z.leb_spec 0 (Z.of_nat (S (slen s)) - 1)) as [_|?]; [|lia].
  destruct (Z.ltb_spec (Z.of_nat (S (slen s)) - 1) (Z.of_nat (S (slen s))))
    as [_|?]; [|lia]. cbn [andb].
  replace (Z.to_nat (Z.of_nat (S (slen s)) - 1)) with (slen s) by lia.
  by rewrite Hp.
Qed.

(** X16: [AppendEmpty] allocates one zero struct that no pointer named
    before, puts the pointer to it after the elements already there,
    which it leaves as they are, and returns that pointer. *)
Theorem AppendEmpty_appends_a_fresh_struct (w : World) (l : nat) (s : slice) :
  slices w !! l = Some s → wfs s →
  ∃ s' w',
    AppendEmpty (mutableAt l) w = (Returns (Some (length (structs w))), w') ∧
    slices w' = <[l := s']> (slices w) ∧
    structs w' = structs w ++ [zero] ∧
    structs w' !! length (structs w) = Some zero ∧
    elems s' = elems s ++ [Some (length (structs w))] ∧ wfs s'.
Proof.
  intros Hs Hwf. eexists _, _. split; [by apply AppendEmpty_spec|].
  cbn [slices structs]. split; [done|]. split; [done|].
  split; [by apply list_lookup_middle|].
  split; [by apply elems_append|by apply wfs_append].
Qed.

Lemma EnsureCapacity_spec w l s n :
  slices w !! l = Some s → wfs s →
  (n ≤ Z.of_nat (scap s) ∨ n ≤ Z.of_nat maxCap)%Z →
  ∃ s',
    EnsureCapacity (mutableAt l) n w = (Returns tt, withSlice l s' w) ∧
    elems s' = elems s ∧ slen s' = slen s ∧ wfs s' ∧
    scap s' = Nat.max (scap s) (Z.to_nat n).
Proof.
  intros Hs Hwf Hfits. pose proof (lookup_lt_Some _ _ _ Hs) as Hl.
  pose proof (length_elems s Hwf) as Hlen. unfold wfs in Hwf.
  unfold EnsureCapacity. run_PM. rewrite Hs.
  destruct (Z.leb_spec n (Z.of_nat (scap s))) as [Hle|Hgt].
  - exists s. unfold withSlice. rewrite list_insert_id by done.
    split; [by destruct w|]. split; [done|]. split; [done|]. split; [done|]. lia.
  - destruct (Z.ltb_spec (Z.of_nat maxCap) n) as [Hbig|_]; [lia|].
    run_PM. destruct (Nat.ltb_spec l (length (slices w))) as [_|?]; [|lia].
    eexists. split; [done|]. unfold elems at 1, wfs; cbn [slen backingOf scap].
    rewrite take_app_length' by done. rewrite length_app, length_replicate.
    split; [done|]. split; [done|]. split; lia.
Qed.

Lemma EnsureCapacity_out_of_range w l s n :
  slices w !! l = Some s →
  (Z.of_nat (scap s) < n)%Z → (Z.of_nat maxCap < n)%Z →
  EnsureCapacity (mutableAt l) n w = (Panics, w).
Proof.
  intros Hs Hcap Hmax. unfold EnsureCapacity. run_PM. rewrite Hs.
  destruct (Z.leb_spec n (Z.of_nat (scap s))) as [?|_]; [lia|].
  by destruct (Z.ltb_spec (Z.of_nat maxCap) n) as [_|?]; [|lia].
Qed.

Lemma appendEmpties_in_place k :
  ∀ w l s, slices w !! l = Some s → wfs s → slen s + k ≤ scap s →
  ∃ s2 w2,
    appendEmpties (mutableAt l) k w =
      (Returns (Some <$> seq (length (structs w)) k), w2) ∧
    slices w2 !! l = Some s2 ∧ scap s2 = scap s ∧ wfs s2 ∧
    elems s2 = elems s ++ (Some <$> seq (length (structs w)) k) ∧
    structs w2 = structs w ++ replicate k zero.
Proof.
  induction k as [|k IH]; intros w l s Hs Hwf Hfit.
  - exists s, w. cbn. rewrite !app_nil_r. by destruct w.
  - pose proof (lookup_lt_Some _ _ _ Hs) as Hl.
    cbn [appendEmpties]. unfold mbind, PM_bind at 1.
    rewrite (AppendEmpty_spec w l s Hs Hwf).
    set (p := Some (length (structs w))).
    set (w1 := {| slices := <[l := append s [p]]> (slices w);
                  structs := structs w ++ [zero] |}).
    destruct (append_one s p Hwf) as [Hn _].
    destruct (IH w1 l (append s [p])) as (s2 & w2 & Hrun & Hs2 & Hcap & Hwf2 & He & Hst).
    { unfold w1; cbn [slices]. by apply list_lookup_insert_eq. }
    { by apply wfs_append. }
    { rewrite Hn, scap_append_in_place; cbn [length]; [lia|done|lia]. }
    unfold mbind, PM_bind at 1. rewrite Hrun. unfold mret, PM_ret.
    assert (length (structs w1) = S (length (structs w))) as Hlen1.
    { unfold w1; cbn [structs]. rewrite length_app; cbn; lia. }
    rewrite Hlen1 in *. exists s2, w2. split; [done|]. split; [done|].
    split; [rewrite Hcap; apply scap_append_in_place; cbn [length]; [done|lia]|].
    split; [done|]. split.
    + rewrite He, elems_append by done. by rewrite <- app_assoc.
    + rewrite Hst. unfold w1; cbn [structs replicate].
      by rewrite <- app_assoc.
Qed.

(** X17: [EnsureCapacity(Len()+k)] returns exactly when the capacity
    asked for is within the capacity the slice has or within what [make]
    can allocate; asked for more than both, it panics and changes
    nothing.  When it returns, the next [k] calls of [AppendEmpty] write
    into the array that [EnsureCapacity] left: the capacity stays what it
    was after [EnsureCapacity], whatever the runtime's growth policy, and
    the slice ends with its old elements followed by [k] pointers to [k]
    new zero structs.  [EnsureCapacity] itself changes no element and
    never lowers the capacity. *)
Theorem EnsureCapacity_then_AppendEmpty_reuses_the_array (w : World) (l : nat)
    (s : slice) (k : nat) :
  slices w !! l = Some s → wfs s →
  (scap s < slen s + k → maxCap < slen s + k →
   EnsureCapacity (mutableAt l) (Z.of_nat (slen s + k)) w = (Panics, w)) ∧
  (slen s + k ≤ scap s ∨ slen s + k ≤ maxCap →
   ∃ s1 s2 w2,
     EnsureCapacity (mutableAt l) (Z.of_nat (slen s + k)) w =
       (Returns tt, withSlice l s1 w) ∧
     elems s1 = elems s ∧ scap s ≤ scap s1 ∧ slen s + k ≤ scap s1 ∧
     appendEmpties (mutableAt l) k (withSlice l s1 w) =
       (Returns (Some <$> seq (length (structs w)) k), w2) ∧
     slices w2 !! l = Some s2 ∧ scap s2 = scap s1 ∧
     elems s2 = elems s ++ (Some <$> seq (length (structs w)) k) ∧
     structs w2 = structs w ++ replicate k zero).
Proof.
  intros Hs Hwf. split.
  { intros Hcap Hmax. apply (EnsureCapacity_out_of_range w l s); [done|lia..]. }
  intros Hfits. pose proof (lookup_lt_Some _ _ _ Hs) as Hl.
  destruct (EnsureCapacity_spec w l s (Z.of_nat (slen s + k)) Hs Hwf ltac:(lia))
    as (s1 & HE & He1 & Hn1 & Hwf1 & Hc1).
  destruct (appendEmpties_in_place k (withSlice l s1 w) l s1)
    as (s2 & w2 & Hrun & Hs2 & Hcap & _ & He2 & Hst).
  { cbn [withSlice slices]. by apply list_lookup_insert_eq. }
  { done. }
  { lia. }
  cbn [withSlice structs] in *. exists s1, s2, w2.
  split; [done|]. split; [done|]. split; [lia|]. split; [lia|].
  split; [done|]. split; [done|]. split; [done|]. split; [by rewrite He2, He1|done].
Qed.

(** X18: a slice whose state is not mutable is never modified through
    it: [EnsureCapacity], [AppendEmpty], [RemoveIf], [Sort],
    [MoveAndAppendTo] (as source and as destination) and [CopyTo] (as
    destination) all panic and leave every slice and every struct as it
    was.  The zero value of [ScopeProfilesSlice] is one such slice. *)
Theorem read_only_slice_is_never_modified (w : World)
    (es other : ScopeProfilesSlice) (f : ptr → bool)
    (less : ptr → ptr → bool) (newCap : Z) :
  state es ≠ Some StateMutable →
  EnsureCapacity es newCap w = (Panics, w) ∧
  AppendEmpty es w = (Panics, w) ∧
  RemoveIf es f w = (Panics, w) ∧
  Sort es less w = (Panics, w) ∧
  MoveAndAppendTo es other w = (Panics, w) ∧
  MoveAndAppendTo other es w = (Panics, w) ∧
  CopyTo other es w = (Panics, w).
Proof.
  intros Hst.
  assert (AssertMutable (state es) w = (Panics, w)) as Hes.
  { unfold AssertMutable. by destruct (state es) as [[]|]. }
  assert (AssertMutable (state other) w = (Panics, w) ∨
          AssertMutable (state other) w = (Returns tt, w)) as Hother.
  { unfold AssertMutable. destruct (state other) as [[]|]; [by right|by left..]. }
  unfold EnsureCapacity, AppendEmpty, RemoveIf, Sort, MoveAndAppendTo, CopyTo.
  unfold mbind, PM_bind. rewrite Hes.
  split_and!; try done.
  destruct Hother as [->| ->]; [done|]. by rewrite Hes.
Qed.

Lemma copyElems_slices idx :
  ∀ src dst w o w', copyElems src dst idx w = (o, w') → slices w' = slices w.
Proof.
  induction idx as [|i idx IH]; intros src dst w o w' H.
  - by inversion H.
  - cbn [copyElems] in H.
    destruct (src !! i) as [p|]; [|by inversion H].
    destruct (dst !! i) as [q|]; [|by inversion H].
    unfold mbind, PM_bind, onStructs in H.
    destruct (elemCopyTo p q (structs w)) as [[[]|] vs].
    + by apply IH in H.
    + by inversion H.
Qed.

(** X19: when [CopyTo] returns, the destination has as many elements as
    the source and no other slice header has changed, whatever copying
    one element does to the structs.  A destination whose capacity
    suffices keeps its backing array, and with it the pointers it held;
    otherwise it gets an array of exactly that many pointers to new
    structs. *)
Theorem CopyTo_sets_the_length (w w' : World) (es : ScopeProfilesSlice)
    (l1 l2 : nat) (s d : slice) :
  orig es = Some l1 →
  slices w !! l1 = Some s → slices w !! l2 = Some d → wfs s → wfs d →
  CopyTo es (mutableAt l2) w = (Returns tt, w') →
  ∃ d',
    slices w' = <[l2 := d']> (slices w) ∧ slen d' = slen s ∧ wfs d' ∧
    (slen s ≤ scap d → backingOf d' = backingOf d) ∧
    (scap d < slen s →
       backingOf d' = Some <$> seq (length (structs w)) (slen s)).
Proof.
  intros Ho Hs Hd Hwfs Hwfd. pose proof (lookup_lt_Some _ _ _ Hd) as Hl2.
  unfold wfs in Hwfd.
  unfold CopyTo. run_PM. rewrite Ho, Hs, Hd.
  destruct (Nat.leb_spec (slen s) (scap d)) as [Hfit|Hbig].
  - run_PM. destruct (Nat.ltb_spec l2 (length (slices w))) as [_|?]; [|lia].
    cbn [slices].
    destruct (<[l2:=reslice d (slen s)]> (slices w) !! l1) as [s1|]; [|done].
    cbn [slices]. rewrite list_lookup_insert_eq by done.
    intros H. destruct (copyElems _ _ _ _) as [[[]|] w1] eqn:Hcopy; [|done].
    apply copyElems_slices in Hcopy. cbn [slices] in Hcopy.
    injection H as <-. exists (reslice d (slen s)). split; [done|].
    destruct d as [|a n]; cbn [reslice slen scap backingOf] in *.
    + split; [lia|]. split; [done|]. split; [done|]. lia.
    + split; [done|]. split; [done|]. split; [done|]. lia.
  - unfold newStructs. run_PM.
    intros H. destruct (copyElems _ _ _ _) as [[[]|] w1] eqn:Hcopy; [|done].
    apply copyElems_slices in Hcopy. cbn [slices] in Hcopy.
    rewrite ?Hcopy in H.
    destruct (Nat.ltb_spec l2 (length (slices w))) as [_|?]; [|lia].
    injection H as <-. eexists. cbn [slices]. split; [done|].
    cbn [slen backingOf]. split; [done|].
    split; [unfold wfs; cbn; by rewrite length_fmap, length_seq|].
    split; [lia|done].
Qed.

End Slice.

(** ** Instances *)

(** A world with one slice of two elements and capacity three at
    address 0, a nil slice at address 1, and two structs. *)
Definition exampleWorld : World nat :=
  {| slices := [Slice [Some 0; Some 1; None] 2; Nil]; structs := [10; 20] |}.

(** X12 at a predicate that removes the first element. *)
Lemma RemoveIf_keeps_the_rest_witness :
  let f := λ p : option nat, bool_decide (p = Some 0) in
  ∃ s',
    RemoveIf nat (mutableAt 0) f exampleWorld =
      (Returns tt, withSlice nat 0 s' exampleWorld) ∧
    elems s' = filter (λ p, f p = false) [Some 0; Some 1] ∧
    scap s' = 3 ∧ wfs s' ∧
    Len nat (mutableAt 0) (withSlice nat 0 s' exampleWorld) =
      (Returns (Z.of_nat (length (filter (λ p, f p = false) [Some 0; Some 1]))),
       withSlice nat 0 s' exampleWorld).
Proof.
  intros f.
  apply (RemoveIf_keeps_the_rest nat exampleWorld 0
           (Slice [Some 0; Some 1; None] 2) f).
  - reflexivity.
  - unfold wfs; cbn; lia.
Defined.

(** X13 at index 1 of the slice at address 0. *)
Lemma At_indexes_the_elements_witness :
  Len nat (mutableAt 0) exampleWorld = (Returns 2%Z, exampleWorld) ∧
  ((0 ≤ 1 < 2)%Z →
     ∃ p, [Some 0; Some 1] !! Z.to_nat 1 = Some p ∧
          At nat (mutableAt 0) 1 exampleWorld = (Returns p, exampleWorld)) ∧
  ((1 < 0 ∨ 2 ≤ 1)%Z → At nat (mutableAt 0) 1 exampleWorld = (Panics, exampleWorld)).
Proof.
  apply (At_indexes_the_elements nat exampleWorld (mutableAt 0) 0
           (Slice [Some 0; Some 1; None] 2) 1).
  - reflexivity.
  - reflexivity.
  - unfold wfs; cbn; lia.
Defined.

(** X14 at the move of the slice at address 0 into the nil slice at
    address 1. *)
Lemma MoveAndAppendTo_moves_witness :
  ∃ d',
    MoveAndAppendTo nat (λ c n, 2 * c) (mutableAt 0) (mutableAt 1) exampleWorld =
      (Returns tt, withSlice nat 0 Nil (withSlice nat 1 d' exampleWorld)) ∧
    elems d' = [] ++ [Some 0; Some 1] ∧ wfs d' ∧
    (@Nil = @Nil → d' = Slice [Some 0; Some 1; None] 2) ∧
    Len nat (mutableAt 0) (withSlice nat 0 Nil (withSlice nat 1 d' exampleWorld)) =
      (Returns 0%Z, withSlice nat 0 Nil (withSlice nat 1 d' exampleWorld)).
Proof.
  apply (MoveAndAppendTo_moves nat (λ c n, 2 * c) exampleWorld 0 1
           (Slice [Some 0; Some 1; None] 2) Nil).
  - lia.
  - reflexivity.
  - reflexivity.
  - unfold wfs; cbn; lia.
  - unfold wfs; cbn; lia.
Defined.

(** X15 at the slice at address 0. *)
Lemma MoveAndAppendTo_itself_empties_witness :
  MoveAndAppendTo nat (λ c n, 2 * c) (mutableAt 0) (mutableAt 0) exampleWorld =
    (Returns tt, withSlice nat 0 Nil exampleWorld) ∧
  Len nat (mutableAt 0) (withSlice nat 0 Nil exampleWorld) =
    (Returns 0%Z, withSlice nat 0 Nil exampleWorld).
Proof.
  apply (MoveAndAppendTo_itself_empties nat (λ c n, 2 * c) exampleWorld 0
           (Slice [Some 0; Some 1; None] 2)).
  reflexivity.
Defined.

(** X16 at the slice at address 0. *)
Lemma AppendEmpty_appends_a_fresh_struct_witness :
  ∃ s' w',
    AppendEmpty nat 0 (λ c n, 2 * c) (mutableAt 0) exampleWorld =
      (Returns (Some 2), w') ∧
    slices nat w' = <[0 := s']> (slices nat exampleWorld) ∧
    structs nat w' = [10; 20] ++ [0] ∧
    structs nat w' !! 2 = Some 0 ∧
    elems s' = [Some 0; Some 1] ++ [Some 2] ∧ wfs s'.
Proof.
  apply (AppendEmpty_appends_a_fresh_struct nat 0 (λ c n, 2 * c) exampleWorld 0
           (Slice [Some 0; Some 1; None] 2)).
  - reflexivity.
  - unfold wfs; cbn; lia.
Defined.

(** X17 at the slice at address 0 and three more elements, where [make]
    allocates up to 1024 pointers. *)
Lemma EnsureCapacity_then_AppendEmpty_reuses_the_array_witness :
  ∃ s1 s2 w2,
    EnsureCapacity nat 1024 (mutableAt 0) (Z.of_nat (2 + 3)) exampleWorld =
      (Returns tt, withSlice nat 0 s1 exampleWorld) ∧
    elems s1 = [Some 0; Some 1] ∧ 3 ≤ scap s1 ∧ 2 + 3 ≤ scap s1 ∧
    appendEmpties nat 0 (λ c n, 2 * c) (mutableAt 0) 3
        (withSlice nat 0 s1 exampleWorld) =
      (Returns (Some <$> seq 2 3), w2) ∧
    slices nat w2 !! 0 = Some s2 ∧ scap s2 = scap s1 ∧
    elems s2 = [Some 0; Some 1] ++ (Some <$> seq 2 3) ∧
    structs nat w2 = [10; 20] ++ replicate 3 0.
Proof.
  apply (EnsureCapacity_then_AppendEmpty_reuses_the_array nat 0 (λ c n, 2 * c) 1024
           exampleWorld 0 (Slice [Some 0; Some 1; None] 2) 3).
  - reflexivity.
  - unfold wfs; cbn; lia.
  - right. cbn. lia.
Defined.

(** X18 at a read-only wrapper of the slice at address 0. *)
Lemma read_only_slice_is_never_modified_witness :
  let copy := λ (p q : option nat) (vs : list nat), (Returns tt, vs) in
  let sorted := λ (less : option nat → option nat → bool) (l : list (option nat)), l in
  let es := {| orig := Some 0; state := Some StateReadOnly |} in
  let f := λ _ : option nat, true in
  let less := λ _ _ : option nat, false in
  EnsureCapacity nat 1024 es 8 exampleWorld = (Panics, exampleWorld) ∧
  AppendEmpty nat 0 (λ c n, 2 * c) es exampleWorld = (Panics, exampleWorld) ∧
  RemoveIf nat es f exampleWorld = (Panics, exampleWorld) ∧
  Sort nat sorted es less exampleWorld = (Panics, exampleWorld) ∧
  MoveAndAppendTo nat (λ c n, 2 * c) es (mutableAt 1) exampleWorld =
    (Panics, exampleWorld) ∧
  MoveAndAppendTo nat (λ c n, 2 * c) (mutableAt 1) es exampleWorld =
    (Panics, exampleWorld) ∧
  CopyTo nat 0 copy (mutableAt 1) es exampleWorld = (Panics, exampleWorld).
Proof.
  intros copy sorted es f less.
  apply (read_only_slice_is_never_modified nat 0 (λ c n, 2 * c) 1024 copy sorted
           exampleWorld es (mutableAt 1) f less 8).
  discriminate.
Defined.

(** X19 at a copy of the slice at address 0 into the nil slice at
    address 1, whose capacity does not suffice. *)
Lemma CopyTo_sets_the_length_witness :
  let copy := λ (p q : option nat) (vs : list nat),
    match p, q with
    | Some a, Some b =>
        match vs !! a with
        | Some v => (Returns tt, <[b := v]> vs)
        | None => (Panics, vs)
        end
    | _, _ => (Panics, vs)
    end in
  ∃ d',
    slices nat (CopyTo nat 0 copy (mutableAt 0) (mutableAt 1) exampleWorld).2 =
      <[1 := d']> (slices nat exampleWorld) ∧
    slen d' = 2 ∧ wfs d' ∧
    (2 ≤ 0 → backingOf d' = []) ∧
    (0 < 2 → backingOf d' = Some <$> seq 2 2).
Proof.
  intros copy.
  apply (CopyTo_sets_the_length nat 0 copy exampleWorld
           (CopyTo nat 0 copy (mutableAt 0) (mutableAt 1) exampleWorld).2
           (mutableAt 0) 0 1 (Slice [Some 0; Some 1; None] 2) Nil).
  - reflexivity.
  - reflexivity.
  - reflexivity.
  - unfold wfs; cbn; lia.
  - unfold wfs; cbn; lia.
  - vm_compute. reflexivity.
Defined.

End pprofile.

(** * Package ptrace: counting spans *)

Module ptrace.

Local Open Scope Z_scope.

Section Traces.

(** A span, of which nothing is looked at here. *)
Variable Span : Type.

(** The request behind [Traces] and the two levels below it, as far as
    [SpanCount] walks them: each level is a slice, read through [Len]
    and [At] like the slice of package [pprofile]. *)
Record ScopeSpans : Type := { Spans : list Span }.
Record ResourceSpans : Type := { ScopeSpansOf : list ScopeSpans }.
Record Traces : Type := { ResourceSpansOf : list ResourceSpans }.

(** [NewTraces]: an empty request. *)
Definition NewTraces : Traces := {| ResourceSpansOf := [] |}.

(** [for i := 0; i < xs.Len(); i++ { x := xs.At(i); ... }] with the
    loop variable [acc] *)
Definition forEachIndex {A B} (xs : list A) (body : B → A → B) (acc : B) : B :=
  foldl (λ acc i, match xs !! i with
                  | Some x => body acc x
                  | None => acc
                  end) acc (seq 0 (length xs)).

(** [SpanCount]: [spanCount] is an [int]. *)
Definition SpanCount (ms : Traces) : Z :=
  forEachIndex (ResourceSpansOf ms)
    (λ spanCount rs,
       forEachIndex (ScopeSpansOf rs)
         (λ spanCount ils, int (spanCount + Z.of_nat (length (Spans ils))))
         spanCount)
    0.

(** The spans of a request, level by level. *)
Definition spansOf (rs : ResourceSpans) : list Span :=
  ScopeSpansOf rs ≫= Spans.

Definition allSpans (ms : Traces) : list Span :=
  ResourceSpansOf ms ≫= spansOf.

(** ** Properties *)

Lemma forEachIndex_foldl {A B} (xs : list A) (body : B → A → B) (acc : B) :
  forEachIndex xs body acc = foldl body acc xs.
Proof.
  unfold forEachIndex.
  assert (∀ ys pre a,
            foldl (λ acc i, match (pre ++ ys) !! i with
                            | Some x => body acc x
                            | None => acc
                            end) a (seq (length pre) (length ys)) =
            foldl body a ys) as H.
  { induction ys as [|y ys IH]; intros pre a; [done|].
    cbn [length seq foldl]. rewrite list_lookup_middle by done.
    replace (pre ++ y :: ys) with ((pre ++ [y]) ++ ys) by by rewrite <- app_assoc.
    replace (S (length pre)) with (length (pre ++ [y]))
      by (rewrite length_app; cbn; lia).
    apply IH. }
  apply (H xs [] acc).
Qed.

Lemma int_add_l (a b : Z) : int (int a + b) = int (a + b).
Proof.
  unfold int.
  replace ((a + 2 ^ 63) mod 2 ^ 64 - 2 ^ 63 + b + 2 ^ 63)
    with ((a + 2 ^ 63) mod 2 ^ 64 + b) by lia.
  rewrite Zplus_mod_idemp_l. do 2 f_equal. lia.
Qed.

Lemma count_scopes (ilss : list ScopeSpans) (a : Z) :
  foldl (λ spanCount ils, int (spanCount + Z.of_nat (length (Spans ils))))
        (int a) ilss =
    int (a + Z.of_nat (length (ilss ≫= Spans))).
Proof.
  revert a. induction ilss as [|ils ilss IH]; intros a.
  - cbn. by rewrite Z.add_0_r.
  - cbn [foldl]. rewrite int_add_l, IH, bind_cons, length_app. f_equal. lia.
Qed.

Lemma count_resources (rss : list ResourceSpans) (a : Z) :
  foldl (λ spanCount rs,
           forEachIndex (ScopeSpansOf rs)
             (λ spanCount ils, int (spanCount + Z.of_nat (length (Spans ils))))
             spanCount)
        (int a) rss =
    int (a + Z.of_nat (length (rss ≫= spansOf))).
Proof.
  revert a. induction rss as [|rs rss IH]; intros a.
  - cbn. by rewrite Z.add_0_r.
  - cbn [foldl]. rewrite forEachIndex_foldl, count_scopes, IH.
    rewrite bind_cons, length_app. unfold spansOf at 2. f_equal. lia.
Qed.

(** X20: [SpanCount] is the number of spans under all scope spans of
    all resource spans (as an [int], so exactly that number below
    2^63); it is 0 for [NewTraces()], and the count of two requests put
    together is the sum of their counts. *)
Theorem SpanCount_counts_every_span (ms : Traces) :
  SpanCount ms = int (Z.of_nat (length (allSpans ms))) ∧
  (Z.of_nat (length (allSpans ms)) < 2 ^ 63 →
   SpanCount ms = Z.of_nat (length (allSpans ms))) ∧
  SpanCount NewTraces = 0 ∧
  (∀ ms', SpanCount {| ResourceSpansOf := ResourceSpansOf ms ++ ResourceSpansOf ms' |} =
          int (SpanCount ms + SpanCount ms')).
Proof.
  assert (∀ m, SpanCount m = int (Z.of_nat (length (allSpans m)))) as Hcount.
  { intros m. unfold SpanCount, allSpans. rewrite forEachIndex_foldl.
    change 0 with (int 0) at 1. by rewrite count_resources. }
  split; [apply Hcount|]. split; [|split; [done|]].
  - intros Hlt. rewrite Hcount. unfold int. rewrite Z.mod_small by lia. lia.
  - intros ms'. rewrite !Hcount. unfold allSpans; cbn [ResourceSpansOf].
    rewrite bind_app, length_app, int_add_l.
    rewrite (Z.add_comm (Z.of_nat (length (ResourceSpansOf ms ≫= spansOf)))),
      int_add_l. f_equal. lia.
Qed.

End Traces.

End ptrace.
